(** * NanoFilt: filtering and trimming of streamed FASTQ records

    A shallow embedding of [nanofilt/NanoFilt.py]: the two selection loops
    [filter_stream] and [filter_using_summary], the tail of [get_args], the
    crop normalisation of [main] and the slicing applied to accepted
    records, followed by the properties of the specification.

    Conventions of the embedding.
    - A Python [int] is a [Z]; a Python [float] is a binary64 value of
      [SpecFloat.spec_float], with the IEEE operations of the standard
      library at precision 53 and maximal exponent 1024.
    - [SeqIO.parse] is the external decoder: the input stream is the finite
      list of records it yields.  The encoder [format("fastq")] is external
      too: standard output is the list of records handed to [print].
    - An uncaught exception or a [sys.exit] ends the run; what was printed
      before stays printed.  Writing to the log file is not modelled. *)

From Stdlib Require Import ZArith Lia Bool Ascii String.
From Stdlib Require Import Floats.SpecFloat.
From Stdlib Require Import Reals Lra.
From stdpp Require Import base option list strings gmap.

Local Open Scope Z_scope.

(** ** Python values *)

Module Py.

(** binary64 *)
Definition float : Type := spec_float.
Definition prec : Z := 53.
Definition emax : Z := 1024.

(** [float(n)] for an [int] [n]: round to nearest, ties to even. *)
Definition float_of_int (n : Z) : float := binary_normalize prec emax n 0 false.

(** The literals [0.0], [1.0] and [0.50] of the source. *)
Definition f0_0 : float := S754_zero false.
Definition f1_0 : float := S754_finite false 4503599627370496 (-52).
Definition f0_5 : float := S754_finite false 4503599627370496 (-53).

Definition feq (x y : float) : bool := SFeqb x y.
Definition fle (x y : float) : bool := SFleb x y.
Definition flt (x y : float) : bool := SFltb x y.

Inductive exception : Type :=
| ZeroDivisionError
| AggregateError.

(** [a / b] on two [int]s (true division).  Python rounds the exact
    quotient once; for operands below [2^53], which lengths and counts of
    an in-memory sequence are, that is the IEEE quotient of the two
    conversions. *)
Definition int_truediv (a b : Z) : exception + float :=
  if b =? 0 then inl ZeroDivisionError
  else inr (SFdiv prec emax (float_of_int a) (float_of_int b)).

(** [x > n] for a [float] [x] and an [int] [n].  Python compares the two
    exact values; a NaN compares false. *)
Definition float_gt_int (x : float) (n : Z) : bool :=
  match x with
  | S754_nan => false
  | S754_infinity s => negb s
  | S754_zero _ => n <? 0
  | S754_finite s m e =>
      let v := if s then Z.neg m else Z.pos m in
      if 0 <=? e then n <? v * 2 ^ e else n * 2 ^ (- e) <? v
  end.

(** [x or 0] for [x] an [int] or [None]. *)
Definition or_zero (x : option Z) : Z :=
  match x with
  | Some n => n
  | None => 0
  end.

(** Truth value of an [int] or [None]. *)
Definition truthy (x : option Z) : bool :=
  match x with
  | Some n => negb (n =? 0)
  | None => false
  end.

(** One bound of a slice brought into [0, len]: a negative bound counts
    from the end, and both are clamped. *)
Definition adjust_index (len i : Z) : Z :=
  if i <? 0 then Z.max 0 (i + len) else Z.min i len.

(** [l[start:stop]], either bound possibly [None]. *)
Definition slice {A : Type} (l : list A) (start stop : option Z) : list A :=
  let len := Z.of_nat (length l) in
  let lo := match start with Some i => adjust_index len i | None => 0 end in
  let hi := match stop with Some j => adjust_index len j | None => len end in
  take (Z.to_nat (hi - lo)) (drop (Z.to_nat lo) l).

(** [bytes.upper]: the ASCII letters [a-z] go to [A-Z]. *)
Definition upper_ascii (c : ascii) : ascii :=
  let n := nat_of_ascii c in
  if ((97 <=? n)%nat && (n <=? 122)%nat)%bool then ascii_of_nat (n - 32) else c.

Definition upper (s : list ascii) : list ascii := map upper_ascii s.

(** [s.count(c)] for a one-letter pattern [c]. *)
Fixpoint count (c : ascii) (s : list ascii) : Z :=
  match s with
  | [] => 0
  | x :: s' => (if Ascii.eqb x c then 1 else 0) + count c s'
  end.

End Py.

Import Py.

(** ** Records and the command line *)

(** A decoded FASTQ record: [rec.id], [rec.seq] and
    [rec.letter_annotations["phred_quality"]]. *)
Record SeqRecord : Type := {
  rec_id : string;
  rec_seq : list ascii;
  phred_quality : list Z
}.

(** [len(rec)] is the length of the sequence. *)
Definition len (rec : SeqRecord) : Z := Z.of_nat (length (rec_seq rec)).

(** [rec[start:stop]]: sequence and per-letter annotations are cut by the
    same slice; the identifier is kept. *)
Definition rec_slice (rec : SeqRecord) (start stop : option Z) : SeqRecord :=
  {| rec_id := rec_id rec;
     rec_seq := slice (rec_seq rec) start stop;
     phred_quality := slice (phred_quality rec) start stop |}.

(** The decoder yields records with one score per letter. *)
Definition well_formed (rec : SeqRecord) : Prop :=
  length (phred_quality rec) = length (rec_seq rec).

Inductive ReadType : Type := RT_1D | RT_2D | RT_1D2.

(** The namespace built by [get_args]. *)
Record Args : Type := {
  arg_length : Z;
  arg_quality : Z;
  arg_minGC : float;
  arg_maxGC : float;
  arg_headcrop : option Z;
  arg_tailcrop : option Z;
  arg_summary : option string;
  arg_readtype : ReadType;
  GC_filter : bool
}.

Definition set_GC_filter (args : Args) (b : bool) : Args :=
  {| arg_length := arg_length args; arg_quality := arg_quality args;
     arg_minGC := arg_minGC args; arg_maxGC := arg_maxGC args;
     arg_headcrop := arg_headcrop args; arg_tailcrop := arg_tailcrop args;
     arg_summary := arg_summary args; arg_readtype := arg_readtype args;
     GC_filter := b |}.

Definition set_tailcrop (args : Args) (t : option Z) : Args :=
  {| arg_length := arg_length args; arg_quality := arg_quality args;
     arg_minGC := arg_minGC args; arg_maxGC := arg_maxGC args;
     arg_headcrop := arg_headcrop args; arg_tailcrop := t;
     arg_summary := arg_summary args; arg_readtype := arg_readtype args;
     GC_filter := GC_filter args |}.

Definition set_quality (args : Args) (q : Z) : Args :=
  {| arg_length := arg_length args; arg_quality := q;
     arg_minGC := arg_minGC args; arg_maxGC := arg_maxGC args;
     arg_headcrop := arg_headcrop args; arg_tailcrop := arg_tailcrop args;
     arg_summary := arg_summary args; arg_readtype := arg_readtype args;
     GC_filter := GC_filter args |}.

Definition set_length (args : Args) (n : Z) : Args :=
  {| arg_length := n; arg_quality := arg_quality args;
     arg_minGC := arg_minGC args; arg_maxGC := arg_maxGC args;
     arg_headcrop := arg_headcrop args; arg_tailcrop := arg_tailcrop args;
     arg_summary := arg_summary args; arg_readtype := arg_readtype args;
     GC_filter := GC_filter args |}.

Definition set_GC (args : Args) (lo hi : float) (b : bool) : Args :=
  {| arg_length := arg_length args; arg_quality := arg_quality args;
     arg_minGC := lo; arg_maxGC := hi;
     arg_headcrop := arg_headcrop args; arg_tailcrop := arg_tailcrop args;
     arg_summary := arg_summary args; arg_readtype := arg_readtype args;
     GC_filter := b |}.

(** [valid_GC], after [float(x)]: the value itself, or the argument error. *)
Definition valid_GC (x : float) : option float :=
  if (flt x f0_0 || flt f1_0 x)%bool then None else Some x.

Definition gc_order_msg : string :=
  "NanoFilt: error: argument --minGC should be smaller than --maxGC".

(** The end of [get_args], from [parse_args] on: [parsed] is the namespace
    the parser returns (its [GC_filter] is not set yet and is ignored). *)
Definition get_args (parsed : Args) : string + Args :=
  if flt (arg_maxGC parsed) (arg_minGC parsed) then inl gc_order_msg
  else if (feq (arg_minGC parsed) f0_0 && feq (arg_maxGC parsed) f1_0)%bool
       then inr (set_GC_filter parsed false)
       else inr (set_GC_filter parsed true).

(** ** Runs *)

(** How a run ends before its time: an uncaught exception, or [sys.exit]
    with a message. *)
Inductive failure : Type :=
| Raised (e : exception)
| SysExit (msg : string).

Inductive outcome : Type :=
| Finished
| Failed (f : failure).

(** What a run leaves behind: the records printed, in order, and how it
    ended. *)
Record Run : Type := {
  stdout : list SeqRecord;
  status : outcome
}.

(** The exit status of the process: an uncaught exception and [sys.exit]
    with a message both give 1. *)
Definition exit_code (o : outcome) : Z :=
  match o with
  | Finished => 0
  | Failed (Raised _) => 1
  | Failed (SysExit _) => 1
  end.

(** Running [r2] after [r1], if [r1] got to its end. *)
Definition run_then (r1 r2 : Run) : Run :=
  match status r1 with
  | Finished => {| stdout := stdout r1 ++ stdout r2; status := status r2 |}
  | _ => r1
  end.

(** ** Loops that print as they go

    Both filters are one loop shape: each record either ends the run or
    prints at most one record.  [print_loop] is that shape; the facts
    proved on it serve the two paths. *)

Section PrintLoop.

Variable step : SeqRecord → failure + option SeqRecord.

Fixpoint print_loop (fq : list SeqRecord) (out : list SeqRecord) : Run :=
  match fq with
  | [] => {| stdout := out; status := Finished |}
  | rec :: fq' =>
      match step rec with
      | inl f => {| stdout := out; status := Failed f |}
      | inr None => print_loop fq' out
      | inr (Some r) => print_loop fq' (out ++ [r])
      end
  end.

(** The record printed for [rec], if the turn prints one. *)
Definition printed (rec : SeqRecord) : option SeqRecord :=
  match step rec with
  | inr o => o
  | inl _ => None
  end.

Definition passes (rec : SeqRecord) : Prop := ∃ o, step rec = inr o.

End PrintLoop.

(** Raising a threshold: the second loop stops where the first does, with
    the same outcome, and prints a record only if the first prints it. *)
Definition step_le (s2 s1 : failure + option SeqRecord) : Prop :=
  match s2, s1 with
  | inl o2, inl o1 => o2 = o1
  | inr None, inr _ => True
  | inr (Some r2), inr (Some r1) => r2 = r1
  | _, _ => False
  end.

(** ** The filters *)

Section Filters.

(** [nanomath.ave_qual], called on the scores of every record of the
    stream path.  [None] stands for an exception leaving the comparison
    of line 171: the aggregator raising, or returning a value that does
    not compare with an [int]. *)
Variable ave_qual : list Z → option float.

(** [nanoget.process_summary], cut down to the two columns [readIDs] and
    [quals] of the rows of one read type, in file order. *)
Variable process_summary : string → ReadType → list (string * float).

(** The GC fraction of line 168. *)
Definition gc_content (rec : SeqRecord) : exception + float :=
  int_truediv (count "C" (upper (rec_seq rec)) + count "G" (upper (rec_seq rec)))
              (len rec).

(** [minlen] of line 165. *)
Definition minlen (args : Args) : Z :=
  arg_length args + or_zero (arg_headcrop args) - or_zero (arg_tailcrop args).

(** The test of lines 171 to 173, once [gc] and the average are known. *)
Definition stream_test (args : Args) (rec : SeqRecord) (gc q : float) : bool :=
  float_gt_int q (arg_quality args)
  && (minlen args <? len rec)
  && (fle (arg_minGC args) gc && fle gc (arg_maxGC args)).

(** One turn of the loop of [filter_stream]: an exception, or the record
    printed, if any. *)
Definition stream_step (args : Args) (rec : SeqRecord)
  : exception + option SeqRecord :=
  match (if GC_filter args then gc_content rec else inr f0_5) with
  | inl e => inl e
  | inr gc =>
      match ave_qual (phred_quality rec) with
      | None => inl AggregateError
      | Some q =>
          if stream_test args rec gc q
          then inr (Some (rec_slice rec (arg_headcrop args) (arg_tailcrop args)))
          else inr None
      end
  end.

(** The loop of [filter_stream], [out] being what is printed so far. *)
Fixpoint stream_loop (args : Args) (fq : list SeqRecord) (out : list SeqRecord)
  : Run :=
  match fq with
  | [] => {| stdout := out; status := Finished |}
  | rec :: fq' =>
      match stream_step args rec with
      | inl e => {| stdout := out; status := Failed (Raised e) |}
      | inr None => stream_loop args fq' out
      | inr (Some r) => stream_loop args fq' (out ++ [r])
      end
  end.

Definition filter_stream (fq : list SeqRecord) (args : Args) : Run :=
  stream_loop args fq [].

(** The dictionary comprehension of line 182: a later row replaces an
    earlier one with the same identifier. *)
Definition summary_dict (rows : list (string * float)) : gmap string float :=
  fold_left (λ d entry, <[entry.1 := entry.2]> d) rows ∅.

Definition nl : string := String (ascii_of_nat 10) EmptyString.

(** The message handed to [sys.exit]; the continuation line of the
    literal brings its indentation into the text. *)
Definition mismatch_msg (name : string) : string :=
  nl +:+ "ERROR: mismatch between sequencing_summary and fastq file: "
     +:+ "                 " +:+ name
     +:+ " was not found in the summary file." +:+ nl +:+ "Quitting.".

(** The test of line 190 on a value found in the summary. *)
Definition summary_test (args : Args) (rec : SeqRecord) (q : float) : bool :=
  float_gt_int q (arg_quality args) && (arg_length args <? len rec).

(** One turn of the loop of [filter_using_summary]: [None] is the
    [KeyError] of [data[record.id]]. *)
Definition summary_step (data : gmap string float) (args : Args) (rec : SeqRecord)
  : option (option SeqRecord) :=
  match data !! rec_id rec with
  | None => None
  | Some q =>
      if summary_test args rec q
      then Some (Some (rec_slice rec (arg_headcrop args) (arg_tailcrop args)))
      else Some None
  end.

(** The loop of lines 189 to 196, with its handler. *)
Fixpoint summary_loop (data : gmap string float) (args : Args)
  (fq : list SeqRecord) (out : list SeqRecord) : Run :=
  match fq with
  | [] => {| stdout := out; status := Finished |}
  | rec :: fq' =>
      match summary_step data args rec with
      | None =>
          {| stdout := out;
             status := Failed (SysExit (mismatch_msg (rec_id rec))) |}
      | Some None => summary_loop data args fq' out
      | Some (Some r) => summary_loop data args fq' (out ++ [r])
      end
  end.

(** [filter_using_summary], the dictionary already built. *)
Definition filter_with (data : gmap string float) (fq : list SeqRecord)
  (args : Args) : Run :=
  summary_loop data args fq [].

Definition filter_using_summary (fq : list SeqRecord) (args : Args) : Run :=
  filter_with
    (summary_dict (process_summary (default EmptyString (arg_summary args))
                                   (arg_readtype args)))
    fq args.

(** Lines 66 and 67 of [main]: a tail crop that is neither [None] nor 0
    is negated. *)
Definition normalise_tailcrop (args : Args) : Args :=
  if truthy (arg_tailcrop args)
  then set_tailcrop args (Some (- or_zero (arg_tailcrop args)))
  else args.

(** Lines 68 to 71: the summary path is taken for a non-empty file name. *)
Definition uses_summary (args : Args) : bool :=
  match arg_summary args with
  | Some name => negb (String.eqb name EmptyString)
  | None => false
  end.

(** [main], from the parsed namespace and the records on standard input. *)
Definition main (parsed : Args) (stdin : list SeqRecord) : Run :=
  match get_args parsed with
  | inl msg => {| stdout := []; status := Failed (SysExit msg) |}
  | inr args =>
      let args := normalise_tailcrop args in
      if uses_summary args
      then filter_using_summary stdin args
      else filter_stream stdin args
  end.

(** The two loops have one shape; a turn of each, as a turn of
    [print_loop]. *)
Definition stream_turn (args : Args) (rec : SeqRecord)
  : failure + option SeqRecord :=
  match stream_step args rec with
  | inl e => inl (Raised e)
  | inr o => inr o
  end.

Definition summary_turn (data : gmap string float) (args : Args)
  (rec : SeqRecord) : failure + option SeqRecord :=
  match summary_step data args rec with
  | None => inl (SysExit (mismatch_msg (rec_id rec)))
  | Some o => inr o
  end.

End Filters.

(** ** Composition metric, as specified *)

(** The specification's count: symbols equal to G or C, whatever the case. *)
Definition spec_is_GC (c : ascii) : bool :=
  Ascii.eqb c "G" || Ascii.eqb c "C" || Ascii.eqb c "g" || Ascii.eqb c "c".

Fixpoint spec_gc_count (s : list ascii) : Z :=
  match s with
  | [] => 0
  | c :: s' => (if spec_is_GC c then 1 else 0) + spec_gc_count s'
  end.

(** ** Quality aggregation, as specified *)

Module QualityAggregator.

Local Open Scope R_scope.

(** Modelled from the spec: the Phred transform of the glossary, the error
    probability [10^(-q/10)] a score [q] stands for. *)
Definition error_probability (q : R) : R := Rpower 10 (- q / 10).

(** Modelled from the spec: the inverse transform of section 4.1, from a
    probability back to a Phred-scaled score. *)
Definition phred_score (p : R) : R := -10 * (ln p / ln 10).

(** Modelled from the spec: the arithmetic mean of section 4.1. *)
Definition mean (ps : list R) : R := foldr Rplus 0 ps / INR (length ps).

(** Modelled from the spec: [ave_qual], which the filter imports from
    nanomath and whose code is not part of the sources.  Section 4.1:
    each score is converted to its error probability, the arithmetic mean
    of the probabilities is taken and converted back to a Phred-scaled
    score; an empty read fails.  The floats are read as real numbers. *)
Definition ave_qual (quals : list Z) : option R :=
  match quals with
  | [] => None
  | _ => Some (phred_score (mean (map (λ q, error_probability (IZR q)) quals)))
  end.

End QualityAggregator.

(** ** Sample inputs *)

(** An aggregator for the examples: exact on a read whose scores are all
    the same, failing on an empty read. *)
Definition flat_ave_qual (quals : list Z) : option float :=
  match quals with
  | [] => None
  | q :: _ => Some (float_of_int q)
  end.

Definition no_summary (name : string) (rt : ReadType) : list (string * float) := [].

(** A read with the score [q] at every base. *)
Definition flat_read (name bases : string) (q : Z) : SeqRecord :=
  {| rec_id := name;
     rec_seq := list_ascii_of_string bases;
     phred_quality := replicate (String.length bases) q |}.

(** [-l 5 -q 10 --headcrop 2], the defaults elsewhere. *)
Definition sample_parsed : Args :=
  {| arg_length := 5; arg_quality := 10;
     arg_minGC := f0_0; arg_maxGC := f1_0;
     arg_headcrop := Some 2; arg_tailcrop := None;
     arg_summary := None; arg_readtype := RT_1D;
     GC_filter := false |}.

Definition r1 : SeqRecord := flat_read "r1" "ACGTACGTAC" 30.
Definition r2 : SeqRecord := flat_read "r2" "AC" 5.

(** More sample inputs. *)
Definition f0_1 : float := S754_finite false 7205759403792794 (-56).

(** The defaults of the parser. *)
Definition default_parsed : Args :=
  {| arg_length := 1; arg_quality := 0;
     arg_minGC := f0_0; arg_maxGC := f1_0;
     arg_headcrop := None; arg_tailcrop := None;
     arg_summary := None; arg_readtype := RT_1D;
     GC_filter := false |}.

(** [--tailcrop 0] *)
Definition tail0_parsed : Args := set_tailcrop default_parsed (Some 0).

(** [--minGC 0.1] *)
Definition gc_parsed : Args := set_GC default_parsed f0_1 f1_0 false.

Definition r3 : SeqRecord := flat_read "r3" "ACGT" 30.

Definition emptied (name : string) : SeqRecord :=
  {| rec_id := name; rec_seq := []; phred_quality := [] |}.

(** A summary that knows [r1] only. *)
Definition sample_data : gmap string float := {["r1" := float_of_int 12]}.

(** ** The help formatter *)

(** The line boundaries of [str.splitlines] among the code points below
    256, which is where the characters of a [string] live: LF, VT, FF, CR,
    FS, GS, RS and NEL. *)
Definition is_line_break (c : ascii) : bool :=
  let n := nat_of_ascii c in
  ((n =? 10) || (n =? 11) || (n =? 12) || (n =? 13)
   || (n =? 28) || (n =? 29) || (n =? 30) || (n =? 133))%nat.

(** [text.splitlines(keepends=True)]: the lines with their terminators, a
    CR followed by LF being one terminator. *)
Fixpoint splitlines_keepends (text : string) : list string :=
  match text with
  | EmptyString => []
  | String c rest =>
      if Ascii.eqb c (ascii_of_nat 13) then
        match rest with
        | String c' rest' =>
            if Ascii.eqb c' (ascii_of_nat 10)
            then String c (String c' EmptyString) :: splitlines_keepends rest'
            else String c EmptyString :: splitlines_keepends rest
        | EmptyString => [String c EmptyString]
        end
      else if is_line_break c then String c EmptyString :: splitlines_keepends rest
      else match splitlines_keepends rest with
           | [] => [String c EmptyString]
           | line :: lines => String c line :: lines
           end
  end.

(** [''.join(parts)] *)
Definition join_empty (parts : list string) : string :=
  foldr String.append EmptyString parts.

(** [CustomHelpFormatter._fill_text]; [width] is not looked at. *)
Definition _fill_text (text : string) (width : Z) (indent : string) : string :=
  join_empty ((λ line, indent +:+ line) <$> splitlines_keepends text).

(** What it means for a list of lines to be the lines of a text: a line is
    a stretch free of line boundaries followed by one terminator, CR LF or
    a single boundary; only the last line may lack its terminator, and no
    CR LF is cut in two. *)
Fixpoint no_break (s : string) : bool :=
  match s with
  | EmptyString => true
  | String c s' => negb (is_line_break c) && no_break s'
  end.

Definition is_terminator (s : string) : bool :=
  match s with
  | String c EmptyString => is_line_break c
  | String c (String c' EmptyString) =>
      Ascii.eqb c (ascii_of_nat 13) && Ascii.eqb c' (ascii_of_nat 10)
  | _ => false
  end.

Definition terminated (line : string) : Prop :=
  ∃ body term,
    line = body +:+ term ∧ no_break body = true ∧ is_terminator term = true.

Definition unterminated (line : string) : Prop :=
  line ≠ EmptyString ∧ no_break line = true.

Definition cuts_CRLF (line next : string) : Prop :=
  (∃ body, line = body +:+ String (ascii_of_nat 13) EmptyString)
  ∧ (∃ rest, next = String (ascii_of_nat 10) rest).

Fixpoint well_cut (lines : list string) : Prop :=
  match lines with
  | [] => True
  | line :: rest =>
      match rest with
      | [] => terminated line ∨ unterminated line
      | next :: _ => terminated line ∧ ¬ cuts_CRLF line next ∧ well_cut rest
      end
  end.

(** ** Sample inputs for the summary path *)

(** A summary with two rows, whatever the file and the read type. *)
Definition sample_rows (name : string) (rt : ReadType) : list (string * float) :=
  [("r1", float_of_int 12); ("r7", float_of_int 12)].

(** [-l 5 -q 10 --headcrop 2 -s sequencing_summary.txt] *)
Definition summary_parsed : Args :=
  {| arg_length := 5; arg_quality := 10;
     arg_minGC := f0_0; arg_maxGC := f1_0;
     arg_headcrop := Some 2; arg_tailcrop := None;
     arg_summary := Some "sequencing_summary.txt"; arg_readtype := RT_1D;
     GC_filter := false |}.

(** Seven bases of score 5: too short and too poor for the stream path
    under [sample_parsed], good enough for the summary path under
    [summary_parsed] and [sample_rows]. *)
Definition r7 : SeqRecord := flat_read "r7" "ACGTACG" 5.

(** Six bases of score 30, and a summary that agrees with [flat_ave_qual]
    on [r1] and on it. *)
Definition r6 : SeqRecord := flat_read "r6" "ACGTAC" 30.

Definition agreeing_data : gmap string float :=
  <["r1" := float_of_int 30]> {["r6" := float_of_int 30]}.

(** ** Facts on the Python values *)

Lemma feq_zero_fle_half (x : float) : feq x f0_0 = true → fle x f0_5 = true.
Proof. by destruct x as [s|s| |s m e]; try destruct s. Qed.

Lemma feq_one_half_fle (y : float) : feq y f1_0 = true → fle f0_5 y = true.
Proof.
  destruct y as [s|s| |s m e]; try destruct s; try done.
  unfold feq, fle, SFeqb, SFleb, f1_0, f0_5, SFcompare.
  destruct (Z.compare_spec e (-52)) as [->| |]; try done.
Qed.

(** A larger [int] is harder to exceed. *)
Lemma float_gt_int_mono (x : float) (n1 n2 : Z) :
  n1 ≤ n2 → float_gt_int x n2 = true → float_gt_int x n1 = true.
Proof.
  intros Hn. destruct x as [s|s| |s m e]; simpl; try done.
  - rewrite !Z.ltb_lt. lia.
  - destruct (0 <=? e) eqn:He; rewrite !Z.ltb_lt; [lia|].
    assert (0 ≤ 2 ^ (- e)) by (apply Z.pow_nonneg; lia). nia.
Qed.

Lemma normalise_tailcrop_fields (args : Args) :
  arg_length (normalise_tailcrop args) = arg_length args
  ∧ arg_quality (normalise_tailcrop args) = arg_quality args
  ∧ arg_minGC (normalise_tailcrop args) = arg_minGC args
  ∧ arg_maxGC (normalise_tailcrop args) = arg_maxGC args
  ∧ arg_headcrop (normalise_tailcrop args) = arg_headcrop args
  ∧ arg_summary (normalise_tailcrop args) = arg_summary args
  ∧ GC_filter (normalise_tailcrop args) = GC_filter args
  ∧ or_zero (arg_tailcrop (normalise_tailcrop args))
    = - or_zero (arg_tailcrop args).
Proof.
  unfold normalise_tailcrop, truthy.
  destruct (arg_tailcrop args) as [t|] eqn:Ht; simpl; [|by rewrite Ht].
  destruct (Z.eqb_spec t 0) as [->|]; simpl; [by rewrite Ht|].
  repeat split; lia.
Qed.

Lemma get_args_fields (parsed args : Args) :
  get_args parsed = inr args →
  arg_length args = arg_length parsed
  ∧ arg_quality args = arg_quality parsed
  ∧ arg_minGC args = arg_minGC parsed
  ∧ arg_maxGC args = arg_maxGC parsed
  ∧ arg_headcrop args = arg_headcrop parsed
  ∧ arg_tailcrop args = arg_tailcrop parsed
  ∧ arg_summary args = arg_summary parsed
  ∧ (GC_filter args = false
     ↔ feq (arg_minGC parsed) f0_0 = true ∧ feq (arg_maxGC parsed) f1_0 = true).
Proof.
  unfold get_args. destruct (flt _ _); [done|].
  destruct (feq (arg_minGC parsed) f0_0) eqn:H0,
           (feq (arg_maxGC parsed) f1_0) eqn:H1;
    simpl; intros [= <-]; simpl; repeat split; try done; by intros [??].
Qed.

(** The first record of a stream with a given decidable property. *)
Lemma first_such {A} (P : A → Prop) `{!∀ x, Decision (P x)} (l : list A) :
  (∃ x, x ∈ l ∧ P x) →
  ∃ pre x post, l = pre ++ x :: post ∧ Forall (λ y, ¬ P y) pre ∧ P x.
Proof.
  induction l as [|a l IH]; intros (x & Hin & Hx).
  - by apply elem_of_nil in Hin.
  - destruct (decide (P a)) as [Ha|Ha].
    + by exists [], a, l.
    + apply elem_of_cons in Hin as [->|Hin]; [done|].
      destruct IH as (pre & y & post & -> & Hpre & Hy); [by exists x|].
      exists (a :: pre), y, post. split; [done|]. split; [by constructor|done].
Qed.

(** ** Facts on the loops *)

Section PrintLoopFacts.

Variable step : SeqRecord → failure + option SeqRecord.

Lemma print_loop_acc fq out :
  print_loop step fq out
  = {| stdout := out ++ stdout (print_loop step fq []);
       status := status (print_loop step fq []) |}.
Proof.
  revert out. induction fq as [|rec fq IH]; intros out; simpl.
  - by rewrite app_nil_r.
  - destruct (step rec) as [o|[r|]]; simpl.
    + by rewrite app_nil_r.
    + rewrite (IH (out ++ [r])), (IH [r]). simpl.
      by rewrite <- app_assoc.
    + apply IH.
Qed.

Lemma print_loop_cons rec fq :
  print_loop step (rec :: fq) []
  = match step rec with
    | inl f => {| stdout := []; status := Failed f |}
    | inr o => {| stdout := option_list o ++ stdout (print_loop step fq []);
                  status := status (print_loop step fq []) |}
    end.
Proof.
  simpl. destruct (step rec) as [o|[r|]]; simpl; try done.
  - by rewrite print_loop_acc.
  - by destruct (print_loop step fq []).
Qed.

Lemma print_loop_app xs ys :
  print_loop step (xs ++ ys) [] = run_then (print_loop step xs []) (print_loop step ys []).
Proof.
  induction xs as [|rec xs IH].
  - simpl. unfold run_then. simpl. by destruct (print_loop step ys []).
  - rewrite <- app_comm_cons, !print_loop_cons.
    destruct (step rec) as [f|o]; [done|].
    rewrite IH. unfold run_then. simpl.
    destruct (status (print_loop step xs [])) eqn:Hs; simpl.
    + by rewrite app_assoc.
    + by rewrite Hs.
Qed.

Lemma print_loop_finished fq :
  Forall (passes step) fq →
  print_loop step fq [] = {| stdout := omap (printed step) fq; status := Finished |}.
Proof.
  induction 1 as [|rec fq [o Ho] _ IH]; [done|].
  rewrite print_loop_cons, Ho, IH. cbn [omap list_omap stdout status].
  unfold printed at 2. rewrite Ho. by destruct o.
Qed.

Lemma print_loop_first_failure pre rec post f :
  Forall (passes step) pre → step rec = inl f →
  print_loop step (pre ++ rec :: post) []
  = {| stdout := omap (printed step) pre; status := Failed f |}.
Proof.
  intros Hpre Hrec. rewrite print_loop_app, (print_loop_finished pre Hpre).
  unfold run_then. simpl. rewrite Hrec. simpl. by rewrite app_nil_r.
Qed.

(** What is printed is what the turns print, up to where the run ends. *)
Lemma print_loop_stdout fq :
  ∃ k, stdout (print_loop step fq []) = omap (printed step) (take k fq).
Proof.
  induction fq as [|rec fq [k IH]].
  - by exists 0%nat.
  - rewrite print_loop_cons. destruct (step rec) as [o|o] eqn:Ho.
    + by exists 0%nat.
    + exists (S k). simpl. unfold printed at 1. rewrite Ho, IH. by destruct o.
Qed.

Lemma print_loop_elem r fq :
  r ∈ stdout (print_loop step fq []) → ∃ rec, rec ∈ fq ∧ step rec = inr (Some r).
Proof.
  destruct (print_loop_stdout fq) as [k ->].
  intros (rec & Hin & Hp)%list_elem_of_omap. exists rec. split.
  - eapply elem_of_sublist; [done | apply sublist_take].
  - unfold printed in Hp. destruct (step rec); by simplify_eq.
Qed.

Lemma omap_printed_ids (l : list SeqRecord) :
  (∀ rec r, step rec = inr (Some r) → rec_id r = rec_id rec) →
  (rec_id <$> omap (printed step) l) `sublist_of` (rec_id <$> l).
Proof.
  intros Hid. induction l as [|rec l IH]; simpl; [constructor|].
  unfold printed at 1. destruct (step rec) as [o|[r|]] eqn:Ho; simpl.
  - by constructor.
  - rewrite (Hid _ _ Ho). by constructor.
  - by constructor.
Qed.

Lemma print_loop_ids fq :
  (∀ rec r, step rec = inr (Some r) → rec_id r = rec_id rec) →
  (rec_id <$> stdout (print_loop step fq [])) `sublist_of` (rec_id <$> fq).
Proof.
  intros Hid. destruct (print_loop_stdout fq) as [k ->].
  etrans; [by apply omap_printed_ids|].
  apply fmap_sublist, sublist_take.
Qed.

End PrintLoopFacts.

Lemma print_loop_mono step1 step2 fq :
  (∀ rec, step_le (step2 rec) (step1 rec)) →
  stdout (print_loop step2 fq []) `sublist_of` stdout (print_loop step1 fq [])
  ∧ status (print_loop step2 fq []) = status (print_loop step1 fq []).
Proof.
  intros Hle. induction fq as [|rec fq [IHo IHs]]; [done|].
  rewrite !print_loop_cons. specialize (Hle rec). unfold step_le in Hle.
  destruct (step2 rec) as [o2|[r2|]], (step1 rec) as [o1|[r1|]];
    simplify_eq; simpl; try done.
  - split; [by constructor | done].
  - split; [by constructor | done].
Qed.

Section FiltersAsLoops.

Variable ave_qual : list Z → option float.

Lemma stream_loop_print args fq out :
  stream_loop ave_qual args fq out = print_loop (stream_turn ave_qual args) fq out.
Proof.
  revert out. induction fq as [|rec fq IH]; intros out; [done|].
  simpl. unfold stream_turn.
  by destruct (stream_step ave_qual args rec) as [e|[r|]].
Qed.

Lemma summary_loop_print data args fq out :
  summary_loop data args fq out = print_loop (summary_turn data args) fq out.
Proof.
  revert out. induction fq as [|rec fq IH]; intros out; [done|].
  simpl. unfold summary_turn.
  by destruct (summary_step data args rec) as [[r|]|].
Qed.

Lemma filter_stream_print fq args :
  filter_stream ave_qual fq args = print_loop (stream_turn ave_qual args) fq [].
Proof. apply stream_loop_print. Qed.

Lemma filter_with_print data fq args :
  filter_with data fq args = print_loop (summary_turn data args) fq [].
Proof. apply summary_loop_print. Qed.

Lemma stream_turn_id args rec r :
  stream_turn ave_qual args rec = inr (Some r) → rec_id r = rec_id rec.
Proof.
  unfold stream_turn, stream_step.
  destruct (if GC_filter args then _ else _) as [e|gc]; [done|].
  destruct (ave_qual _) as [q|]; [|done].
  destruct (stream_test _ _ _ _); intros; by simplify_eq.
Qed.

Lemma summary_turn_id data args rec r :
  summary_turn data args rec = inr (Some r) → rec_id r = rec_id rec.
Proof.
  unfold summary_turn, summary_step. destruct (data !! _) as [q|]; [|done].
  destruct (summary_test _ _ _); intros; by simplify_eq.
Qed.

End FiltersAsLoops.

(** ** The properties of the specification *)

Section Properties.

Variable ave_qual : list Z → option float.
Variable process_summary : string → ReadType → list (string * float).

(** One turn of the Stream Filter.  For the arguments as [main] hands them
    to [filter_stream], a turn of the loop prints the trimmed record iff
    the aggregate quality exceeds the minimum quality, the untrimmed
    length exceeds minimum length + head crop + tail crop (the crops as
    typed, absent counting 0), and the GC fraction lies between [minGC]
    and [maxGC], both included; the last condition is dropped when GC
    filtering is off, which is when [minGC == 0.0] and [maxGC == 1.0].
    A turn prints nothing else. *)
Lemma stream_step_acceptance (parsed args : Args) (rec : SeqRecord) :
  get_args parsed = inr args →
  let args' := normalise_tailcrop args in
  let emitted := rec_slice rec (arg_headcrop args') (arg_tailcrop args') in
  (stream_step ave_qual args' rec = inr (Some emitted)
   ↔ (∃ q, ave_qual (phred_quality rec) = Some q
           ∧ float_gt_int q (arg_quality parsed) = true)
     ∧ arg_length parsed + or_zero (arg_headcrop parsed)
       + or_zero (arg_tailcrop parsed) < len rec
     ∧ (GC_filter args = false
        ∨ ∃ gc, gc_content rec = inr gc
                ∧ fle (arg_minGC parsed) gc = true
                ∧ fle gc (arg_maxGC parsed) = true))
  ∧ (∀ r, stream_step ave_qual args' rec = inr (Some r) → r = emitted)
  ∧ (GC_filter args = false
     ↔ feq (arg_minGC parsed) f0_0 = true ∧ feq (arg_maxGC parsed) f1_0 = true).
Proof.
  intros Hargs args' emitted.
  destruct (get_args_fields _ _ Hargs)
    as (Hl & Hq & Hlo & Hhi & Hh & Ht & _ & Hgc).
  destruct (normalise_tailcrop_fields args)
    as (Hl' & Hq' & Hlo' & Hhi' & Hh' & _ & Hgc' & Ht').
  fold args' in Hl', Hq', Hlo', Hhi', Hh', Hgc', Ht'.
  subst emitted. split; [|split; [|done]].
  - unfold stream_step, stream_test, minlen.
    rewrite Hgc', Hq', Hl', Hlo', Hhi', Hh', Ht', Hl, Hq, Hlo, Hhi, Hh, Ht.
    destruct (GC_filter args) eqn:HG.
    + destruct (gc_content rec) as [e|gc].
      { split; [done|]. intros (_ & _ & [?|(gc & ? & _)]); done. }
      destruct (ave_qual _) as [q|].
      2:{ split; [done|]. by intros ((q & ? & _) & _). }
      destruct (float_gt_int q _) eqn:Hgt; simpl.
      2:{ split; [done|]. intros ((q' & [= <-] & ?) & _). congruence. }
      destruct (Z.ltb_spec (arg_length parsed + or_zero (arg_headcrop parsed)
                            - - or_zero (arg_tailcrop parsed)) (len rec)); simpl.
      2:{ split; [done|]. intros (_ & ? & _). lia. }
      destruct (fle (arg_minGC parsed) gc) eqn:Hlo1; simpl.
      2:{ split; [done|]. intros (_ & _ & [?|(gc' & [= <-] & ? & _)]); congruence. }
      destruct (fle gc (arg_maxGC parsed)) eqn:Hhi1; simpl.
      2:{ split; [done|]. intros (_ & _ & [?|(gc' & [= <-] & _ & ?)]); congruence. }
      split; [intros _|done].
      split; [by exists q|]. split; [lia|]. right. by exists gc.
    + destruct (proj1 Hgc eq_refl) as [H0 H1].
      rewrite (feq_zero_fle_half _ H0), (feq_one_half_fle _ H1). simpl.
      destruct (ave_qual _) as [q|].
      2:{ split; [done|]. by intros ((q & ? & _) & _). }
      destruct (float_gt_int q _) eqn:Hgt; simpl.
      2:{ split; [done|]. intros ((q' & [= <-] & ?) & _). congruence. }
      destruct (Z.ltb_spec (arg_length parsed + or_zero (arg_headcrop parsed)
                            - - or_zero (arg_tailcrop parsed)) (len rec)); simpl.
      2:{ split; [done|]. intros (_ & ? & _). lia. }
      split; [intros _|done].
      split; [by exists q|]. split; [lia|]. by left.
  - intros r. unfold stream_step.
    destruct (if GC_filter args' then _ else _) as [e|gc]; [done|].
    destruct (ave_qual _) as [q|]; [|done].
    destruct (stream_test _ _ _ _); intros; by simplify_eq.
Qed.

(** One turn of the Summary-Joined Filter.  For a record whose identifier
    is in the summary with value [q], a turn of the loop prints the
    trimmed record iff [q] exceeds the minimum quality and the untrimmed
    length exceeds the minimum length as configured, no crop added; it
    prints nothing otherwise; and neither [minGC], [maxGC] nor
    [GC_filter] has any say. *)
Lemma summary_step_acceptance (data : gmap string float) (args : Args)
  (rec : SeqRecord) (q : float) :
  data !! rec_id rec = Some q →
  let emitted := rec_slice rec (arg_headcrop args) (arg_tailcrop args) in
  (summary_step data args rec = Some (Some emitted)
   ↔ float_gt_int q (arg_quality args) = true ∧ arg_length args < len rec)
  ∧ (summary_step data args rec = Some None
     ↔ ¬ (float_gt_int q (arg_quality args) = true ∧ arg_length args < len rec))
  ∧ (∀ lo hi b,
       summary_step data (set_GC args lo hi b) rec = summary_step data args rec).
Proof.
  intros Hq emitted. unfold summary_step, summary_test. rewrite Hq. simpl.
  destruct (float_gt_int q _); simpl;
    destruct (Z.ltb_spec (arg_length args) (len rec)); simpl;
    (split; [|split; [|done]]); split; try done; try (intros [_ ?]; lia);
    try (by intros [? _]); try (intros Hno; destruct Hno; by split); try lia.
Qed.

(** C3. Identifier mismatch is fatal.  If some record of the stream has
    an identifier missing from the summary, the Summary-Joined Filter
    stops at the first such record: the run ends in [sys.exit] with the
    message naming that identifier, the exit status is not 0, and what
    is printed is what the records before it print on their own, so
    nothing from the failing record on. *)
Theorem mismatch_is_fatal (data : gmap string float) (args : Args)
  (fq : list SeqRecord) :
  (∃ rec, rec ∈ fq ∧ data !! rec_id rec = None) →
  ∃ pre rec post,
    fq = pre ++ rec :: post
    ∧ Forall (λ r, is_Some (data !! rec_id r)) pre
    ∧ data !! rec_id rec = None
    ∧ status (filter_with data fq args)
      = Failed (SysExit (mismatch_msg (rec_id rec)))
    ∧ (∃ before after,
         mismatch_msg (rec_id rec) = before +:+ rec_id rec +:+ after)
    ∧ exit_code (status (filter_with data fq args)) ≠ 0
    ∧ status (filter_with data pre args) = Finished
    ∧ stdout (filter_with data fq args) = stdout (filter_with data pre args).
Proof.
  intros Hmiss.
  destruct (first_such (λ r, data !! rec_id r = None) fq Hmiss)
    as (pre & rec & post & -> & Hpre & Hrec).
  simpl in Hrec. exists pre, rec, post.
  assert (Hpass : Forall (passes (summary_turn data args)) pre).
  { eapply Forall_impl; [exact Hpre|]. intros r Hr. simpl in Hr.
    unfold passes, summary_turn, summary_step.
    destruct (data !! rec_id r) as [q|]; [|by destruct Hr].
    destruct (summary_test args r q); eauto. }
  assert (Hfail : summary_turn data args rec
                  = inl (SysExit (mismatch_msg (rec_id rec)))).
  { unfold summary_turn, summary_step. by rewrite Hrec. }
  rewrite !filter_with_print.
  rewrite (print_loop_first_failure _ _ _ post _ Hpass Hfail).
  rewrite (print_loop_finished _ _ Hpass). simpl.
  repeat split; try done.
  - eapply Forall_impl; [exact Hpre|]. intros r Hr. simpl in Hr.
    destruct (data !! rec_id r); [by eexists | by destruct Hr].
  - exists (nl +:+ "ERROR: mismatch between sequencing_summary and fastq file: "
               +:+ "                 "),
           (" was not found in the summary file." +:+ nl +:+ "Quitting.").
    reflexivity.
Qed.

(** C9. Order preservation and statelessness.  On both paths, and for
    [main] as a whole, the identifiers printed are a subsequence of the
    identifiers read, in the same order; what is printed is what the
    single turns print, each a function of the arguments and of its own
    record, up to where the run ends; and a stream cut in two gives the
    run on the first part followed, if that one finishes, by the run on
    the second part started afresh. *)
Theorem order_preserved_stateless (data : gmap string float)
  (parsed args : Args) (xs ys : list SeqRecord) :
  (rec_id <$> stdout (filter_stream ave_qual xs args))
    `sublist_of` (rec_id <$> xs)
  ∧ (rec_id <$> stdout (filter_with data xs args))
      `sublist_of` (rec_id <$> xs)
  ∧ (rec_id <$> stdout (main ave_qual process_summary parsed xs))
      `sublist_of` (rec_id <$> xs)
  ∧ (∃ k, stdout (filter_stream ave_qual xs args)
          = omap (printed (stream_turn ave_qual args)) (take k xs))
  ∧ (∃ k, stdout (filter_with data xs args)
          = omap (printed (summary_turn data args)) (take k xs))
  ∧ filter_stream ave_qual (xs ++ ys) args
    = run_then (filter_stream ave_qual xs args) (filter_stream ave_qual ys args)
  ∧ filter_with data (xs ++ ys) args
    = run_then (filter_with data xs args) (filter_with data ys args).
Proof.
  assert (Hs : ∀ a, (rec_id <$> stdout (filter_stream ave_qual xs a))
                      `sublist_of` (rec_id <$> xs)).
  { intros a. rewrite filter_stream_print.
    apply print_loop_ids, stream_turn_id. }
  assert (Hw : ∀ d a, (rec_id <$> stdout (filter_with d xs a))
                        `sublist_of` (rec_id <$> xs)).
  { intros d a. rewrite filter_with_print.
    apply print_loop_ids, summary_turn_id. }
  split; [apply Hs|]. split; [apply Hw|]. split.
  { unfold main. destruct (get_args parsed) as [msg|a]; simpl.
    - apply sublist_nil_l.
    - destruct (uses_summary _); [apply Hw | apply Hs]. }
  rewrite !filter_stream_print, !filter_with_print.
  split; [apply print_loop_stdout|]. split; [apply print_loop_stdout|].
  split; apply print_loop_app.
Qed.

(** C8. Filter monotonicity.  For a fixed stream and otherwise fixed
    arguments, a larger minimum quality, or a larger minimum length,
    makes the Stream Filter print no more records than before: what it
    prints is a subsequence of what it printed, and the run ends the
    same way. *)
Theorem filter_monotone (args : Args) (fq : list SeqRecord) (q' n' : Z) :
  (arg_quality args ≤ q' →
     (length (stdout (filter_stream ave_qual fq (set_quality args q')))
      ≤ length (stdout (filter_stream ave_qual fq args)))%nat
     ∧ stdout (filter_stream ave_qual fq (set_quality args q'))
         `sublist_of` stdout (filter_stream ave_qual fq args)
     ∧ status (filter_stream ave_qual fq (set_quality args q'))
       = status (filter_stream ave_qual fq args))
  ∧ (arg_length args ≤ n' →
     (length (stdout (filter_stream ave_qual fq (set_length args n')))
      ≤ length (stdout (filter_stream ave_qual fq args)))%nat
     ∧ stdout (filter_stream ave_qual fq (set_length args n'))
         `sublist_of` stdout (filter_stream ave_qual fq args)
     ∧ status (filter_stream ave_qual fq (set_length args n'))
       = status (filter_stream ave_qual fq args)).
Proof.
  assert (Hkey : ∀ args2,
    (∀ rec, step_le (stream_turn ave_qual args2 rec)
                    (stream_turn ave_qual args rec)) →
    (length (stdout (filter_stream ave_qual fq args2))
     ≤ length (stdout (filter_stream ave_qual fq args)))%nat
    ∧ stdout (filter_stream ave_qual fq args2)
        `sublist_of` stdout (filter_stream ave_qual fq args)
    ∧ status (filter_stream ave_qual fq args2)
      = status (filter_stream ave_qual fq args)).
  { intros args2 Hle. rewrite !filter_stream_print.
    destruct (print_loop_mono _ _ fq Hle) as [Hsub Hst].
    split; [by apply sublist_length|done]. }
  split; intros Hge; apply Hkey; intros rec;
    unfold step_le, stream_turn, stream_step, stream_test, minlen; simpl;
    (destruct (if GC_filter args then _ else _) as [e|gc]; [done|]);
    (destruct (ave_qual _) as [q|]; [|done]).
  - destruct (float_gt_int q q') eqn:Hq'; simpl.
    + rewrite (float_gt_int_mono q _ _ Hge Hq'). simpl.
      by destruct (_ && _)%bool.
    + by destruct (_ && _)%bool.
  - destruct (float_gt_int q _); simpl; [|done].
    destruct (Z.ltb_spec (n' + or_zero (arg_headcrop args)
                          - or_zero (arg_tailcrop args)) (len rec)); simpl.
    + destruct (Z.ltb_spec (arg_length args + or_zero (arg_headcrop args)
                            - or_zero (arg_tailcrop args)) (len rec)); [|lia].
      simpl. by destruct (_ && _)%bool.
    + by destruct (_ && _)%bool.
Qed.

End Properties.

(** ** Composition metric *)

Lemma upper_ascii_GC (c : ascii) :
  (if Ascii.eqb (upper_ascii c) "C" then 1 else 0)
  + (if Ascii.eqb (upper_ascii c) "G" then 1 else 0)
  = if spec_is_GC c then 1 else 0.
Proof.
  destruct c as [b0 b1 b2 b3 b4 b5 b6 b7].
  destruct b0, b1, b2, b3, b4, b5, b6, b7; vm_compute; reflexivity.
Qed.

Lemma count_upper_GC (s : list ascii) :
  count "C" (upper s) + count "G" (upper s) = spec_gc_count s.
Proof.
  induction s as [|c s IH]; [done|].
  cbn [upper map count spec_gc_count]. fold (upper s).
  rewrite <- IH, <- upper_ascii_GC. lia.
Qed.

(** C6. Composition metric.  For a non-empty sequence, the GC fraction
    computed by the filter is the number of symbols equal to G or C, in
    either case, divided (in binary64) by the length; it is 1.0 for GGCC,
    0.0 for ATAT and 0.5 for ATGC. *)
Theorem composition_metric (rec : SeqRecord) :
  (rec_seq rec ≠ [] →
   gc_content rec
   = inr (SFdiv prec emax (float_of_int (spec_gc_count (rec_seq rec)))
                          (float_of_int (len rec))))
  ∧ gc_content (flat_read "a" "GGCC" 30) = inr f1_0
  ∧ gc_content (flat_read "b" "ATAT" 30) = inr f0_0
  ∧ gc_content (flat_read "c" "ATGC" 30) = inr f0_5.
Proof.
  split; [|by vm_compute].
  intros Hne. unfold gc_content, int_truediv. rewrite count_upper_GC.
  destruct (Z.eqb_spec (len rec) 0) as [H0|_]; [|done].
  unfold len in H0. destruct (rec_seq rec); [done|]. simpl in H0. lia.
Qed.

Lemma composition_metric_witness :
  gc_content (flat_read "d" "acgT" 30)
  = inr (SFdiv prec emax (float_of_int 2) (float_of_int 4)).
Proof.
  exact (proj1 (composition_metric (flat_read "d" "acgT" 30))
               ltac:(discriminate)).
Defined.

(** ** Trimming *)

Lemma slice_stop_zero {A} (l : list A) (start : option Z) :
  slice l start (Some 0) = [].
Proof.
  unfold slice.
  set (lo := match start with Some i => _ | None => 0 end).
  assert (0 ≤ lo).
  { unfold lo, adjust_index. destruct start as [i|]; [|done].
    destruct (Z.ltb_spec i 0); lia. }
  unfold adjust_index. change (0 <? 0) with false. cbv iota.
  replace (Z.to_nat (Z.min 0 (Z.of_nat (length l)) - lo)) with 0%nat by lia.
  done.
Qed.

Lemma slice_from {A} (l : list A) (start : option Z) :
  0 ≤ or_zero start → slice l start None = drop (Z.to_nat (or_zero start)) l.
Proof.
  intros Hh. unfold slice. destruct start as [i|]; cbn [or_zero] in *.
  - unfold adjust_index. destruct (Z.ltb_spec i 0); [lia|].
    destruct (Z.le_gt_cases (Z.of_nat (length l)) i).
    + rewrite !drop_ge by lia. apply take_nil.
    + replace (Z.min i (Z.of_nat (length l))) with i by lia.
      apply take_ge. rewrite length_drop. lia.
  - apply take_ge. rewrite length_drop. lia.
Qed.

(** The range kept when the head crop is [h] and the tail crop, typed as
    [t] and not 0, has been negated. *)
Lemma slice_range {A} (l : list A) (start stop : option Z) (h t : Z) :
  or_zero start = h → 0 ≤ h →
  (stop = None ∧ t = 0 ∨ stop = Some (- t) ∧ 0 < t) →
  h + t ≤ Z.of_nat (length l) →
  slice l start stop
  = take (Z.to_nat (Z.of_nat (length l) - h - t)) (drop (Z.to_nat h) l).
Proof.
  intros Hstart Hh Hstop Hlen. unfold slice.
  assert (Hlo : match start with
                | Some i => adjust_index (Z.of_nat (length l)) i
                | None => 0
                end = h).
  { destruct start as [i|]; simpl in Hstart; [|done]. subst i.
    unfold adjust_index. destruct (Z.ltb_spec h 0); lia. }
  assert (Hhi : match stop with
                | Some j => adjust_index (Z.of_nat (length l)) j
                | None => Z.of_nat (length l)
                end = Z.of_nat (length l) - t).
  { destruct Hstop as [[-> ->]|[-> Ht]]; [lia|].
    unfold adjust_index. destruct (Z.ltb_spec (- t) 0); lia. }
  rewrite Hlo, Hhi. f_equal. lia.
Qed.

Lemma stream_step_slice ave_qual (args : Args) (rec r : SeqRecord) :
  stream_step ave_qual args rec = inr (Some r) →
  r = rec_slice rec (arg_headcrop args) (arg_tailcrop args)
  ∧ minlen args < len rec.
Proof.
  unfold stream_step.
  destruct (if GC_filter args then _ else _) as [e|gc]; [done|].
  destruct (ave_qual _) as [q|]; [|done].
  destruct (stream_test _ _ _ _) eqn:Ht; [|done]. intros [= <-].
  split; [done|]. unfold stream_test in Ht.
  apply andb_prop in Ht as [[_ Hl%Z.ltb_lt]%andb_prop _]. done.
Qed.

Lemma summary_step_slice data (args : Args) (rec r : SeqRecord) :
  summary_step data args rec = Some (Some r) →
  r = rec_slice rec (arg_headcrop args) (arg_tailcrop args).
Proof.
  unfold summary_step. destruct (data !! _) as [q|]; [|done].
  destruct (summary_test _ _ _); intros; by simplify_eq.
Qed.

(** Away from a tail crop typed as 0, the Stream Filter keeps the range
    [h, length - t) of both the sequence and the scores. *)
Lemma trim_invariant_unless_zero_tail ave_qual (parsed args : Args)
  (rec r : SeqRecord) :
  get_args parsed = inr args →
  well_formed rec →
  arg_tailcrop parsed ≠ Some 0 →
  0 ≤ arg_length parsed →
  0 ≤ or_zero (arg_headcrop parsed) →
  0 ≤ or_zero (arg_tailcrop parsed) →
  stream_step ave_qual (normalise_tailcrop args) rec = inr (Some r) →
  let h := or_zero (arg_headcrop parsed) in
  let t := or_zero (arg_tailcrop parsed) in
  rec_seq r = take (Z.to_nat (len rec - h - t)) (drop (Z.to_nat h) (rec_seq rec))
  ∧ phred_quality r
    = take (Z.to_nat (len rec - h - t)) (drop (Z.to_nat h) (phred_quality rec))
  ∧ Z.of_nat (length (rec_seq r)) = len rec - h - t
  ∧ length (phred_quality r) = length (rec_seq r).
Proof.
  intros Hargs Hwf Ht0 Hl Hh Ht Hstep h t. unfold well_formed in Hwf.
  destruct (get_args_fields _ _ Hargs) as (El & _ & _ & _ & Eh & Et & _).
  destruct (normalise_tailcrop_fields args) as (El' & _ & _ & _ & Eh' & _ & _ & Et').
  apply stream_step_slice in Hstep as [-> Hlen].
  unfold minlen in Hlen. rewrite El', Eh', Et', El, Eh, Et in Hlen.
  fold h t in Hlen.
  assert (Hstop : arg_tailcrop (normalise_tailcrop args) = None ∧ t = 0
                  ∨ arg_tailcrop (normalise_tailcrop args) = Some (- t) ∧ 0 < t).
  { unfold normalise_tailcrop, truthy, t. rewrite Et.
    destruct (arg_tailcrop parsed) as [n|] eqn:En; cbn [or_zero] in *.
    - destruct (Z.eqb_spec n 0) as [->|Hn]; [done|]. right.
      split; [done|lia].
    - left. by rewrite Et. }
  assert (Hstart : or_zero (arg_headcrop (normalise_tailcrop args)) = h).
  { by rewrite Eh', Eh. }
  unfold len in *. simpl.
  rewrite (slice_range (rec_seq rec) _ _ h t Hstart Hh Hstop) by lia.
  rewrite (slice_range (phred_quality rec) _ _ h t Hstart Hh Hstop)
    by (rewrite Hwf; lia).
  rewrite Hwf. repeat split; try done.
  - rewrite length_take, length_drop. lia.
  - rewrite !length_take, !length_drop. lia.
Qed.

(** Whatever [main] prints is the slice of a record it read, cut with the
    head crop and the tail crop as normalised. *)
Lemma main_prints_slices ave_qual process_summary (parsed args : Args)
  (stdin : list SeqRecord) (r : SeqRecord) :
  get_args parsed = inr args →
  r ∈ stdout (main ave_qual process_summary parsed stdin) →
  ∃ rec, rec ∈ stdin
         ∧ r = rec_slice rec (arg_headcrop (normalise_tailcrop args))
                             (arg_tailcrop (normalise_tailcrop args)).
Proof.
  intros Hargs. unfold main. rewrite Hargs.
  destruct (uses_summary _).
  - unfold filter_using_summary. rewrite filter_with_print.
    intros (rec & Hin & Hturn)%print_loop_elem. exists rec. split; [done|].
    apply (summary_step_slice
             (summary_dict (process_summary
                (default EmptyString (arg_summary (normalise_tailcrop args)))
                (arg_readtype (normalise_tailcrop args))))).
    unfold summary_turn in Hturn. destruct (summary_step _ _ _); by simplify_eq.
  - rewrite filter_stream_print.
    intros (rec & Hin & Hturn)%print_loop_elem. exists rec. split; [done|].
    apply (stream_step_slice ave_qual). unfold stream_turn in Hturn.
    destruct (stream_step _ _ _); by simplify_eq.
Qed.

(** What [main] prints under a tail crop typed as 0, and under none.  With 0 the
    negation of [main] is skipped, every record either path prints is the
    slice [head_crop : 0] of a record read, and its sequence and scores are
    empty.  With no tail crop every record printed is the slice
    [head_crop :] of a record read, which for a head crop that is absent
    or not negative is the record from that position on.  On the read
    ACGT the first prints an empty record and the second the whole read. *)
Lemma tailcrop_zero_output_empty ave_qual process_summary
  (parsed args : Args) (stdin : list SeqRecord) :
  get_args parsed = inr args →
  (arg_tailcrop parsed = Some 0 →
   normalise_tailcrop args = args
   ∧ ∀ r, r ∈ stdout (main ave_qual process_summary parsed stdin) →
          (∃ rec, rec ∈ stdin ∧ r = rec_slice rec (arg_headcrop parsed) (Some 0))
          ∧ rec_seq r = [] ∧ phred_quality r = [])
  ∧ (arg_tailcrop parsed = None →
     ∀ r, r ∈ stdout (main ave_qual process_summary parsed stdin) →
          ∃ rec, rec ∈ stdin
                 ∧ r = rec_slice rec (arg_headcrop parsed) None
                 ∧ (0 ≤ or_zero (arg_headcrop parsed) →
                    rec_seq r
                    = drop (Z.to_nat (or_zero (arg_headcrop parsed))) (rec_seq rec)
                    ∧ phred_quality r
                      = drop (Z.to_nat (or_zero (arg_headcrop parsed)))
                             (phred_quality rec)))
  ∧ stdout (main flat_ave_qual no_summary tail0_parsed [r3]) = [emptied "r3"]
  ∧ stdout (main flat_ave_qual no_summary default_parsed [r3]) = [r3].
Proof.
  intros Hargs.
  destruct (get_args_fields _ _ Hargs) as (_ & _ & _ & _ & Eh & Et & _).
  destruct (normalise_tailcrop_fields args) as (_ & _ & _ & _ & Eh' & _).
  split; [|split; [|by vm_compute]].
  - intros H0.
    assert (Hn : normalise_tailcrop args = args).
    { unfold normalise_tailcrop, truthy. by rewrite Et, H0. }
    split; [done|]. intros r Hr.
    destruct (main_prints_slices _ _ _ _ _ _ Hargs Hr) as (rec & Hin & ->).
    rewrite Hn, Eh, Et, H0. split; [by exists rec|].
    simpl. by rewrite !slice_stop_zero.
  - intros HN r Hr.
    assert (Hn : normalise_tailcrop args = args).
    { unfold normalise_tailcrop, truthy. by rewrite Et, HN. }
    destruct (main_prints_slices _ _ _ _ _ _ Hargs Hr) as (rec & Hin & ->).
    rewrite Hn, Eh, Et, HN. exists rec. split; [done|]. split; [done|].
    intros Hh. simpl. by rewrite !slice_from.
Qed.

(** C5, at a tail crop typed as 0.  The read ACGT with score 30 throughout
    passes the default filters; the trim invariant promises its four bases
    and four scores back, and [main] prints a record with none. *)
Theorem tailcrop_zero_breaks_trim ave_qual process_summary (q : float) :
  ave_qual [30; 30; 30; 30] = Some q →
  float_gt_int q 0 = true →
  main ave_qual process_summary tail0_parsed [r3]
  = {| stdout := [emptied "r3"]; status := Finished |}
  ∧ len r3 - 0 - 0 = 4
  ∧ Forall (λ r, length (rec_seq r) = 0%nat ∧ length (phred_quality r) = 0%nat)
           (stdout (main ave_qual process_summary tail0_parsed [r3])).
Proof.
  intros Hq Hgt.
  assert (Hrun : main ave_qual process_summary tail0_parsed [r3]
                 = {| stdout := [emptied "r3"]; status := Finished |}).
  { unfold main, filter_stream. cbn. unfold stream_step. cbn.
    rewrite Hq. unfold stream_test.
    change (arg_quality (set_GC_filter tail0_parsed false)) with 0.
    rewrite Hgt. by vm_compute. }
  rewrite Hrun. split; [done|]. split; [done|]. by repeat constructor.
Qed.

Lemma tailcrop_zero_breaks_trim_witness :
  main flat_ave_qual no_summary tail0_parsed [r3]
  = {| stdout := [emptied "r3"]; status := Finished |}.
Proof.
  exact (proj1 (tailcrop_zero_breaks_trim flat_ave_qual no_summary
                  (float_of_int 30) eq_refl eq_refl)).
Defined.

(** C7, at an empty record.  The GC fraction of a record without bases is
    a division by zero, and no test on the length comes before it: with GC
    filtering on, [main] meets an empty record and ends in that exception,
    whatever follows the record and whatever the aggregator. *)
Theorem empty_record_divides_by_zero ave_qual process_summary
  (name : string) (quals : list Z) (rest : list SeqRecord) :
  gc_content {| rec_id := name; rec_seq := []; phred_quality := quals |}
  = inl ZeroDivisionError
  ∧ main ave_qual process_summary gc_parsed
         ({| rec_id := name; rec_seq := []; phred_quality := quals |} :: rest)
    = {| stdout := []; status := Failed (Raised ZeroDivisionError) |}.
Proof. split; reflexivity. Qed.

(** ** The theorems at sample inputs *)

(** The end-to-end example of the specification: of [r1] (ten bases, score
    30) and [r2] (two bases, score 5) under [-l 5 -q 10 --headcrop 2], only
    [r1] comes out, cut to its last eight bases. *)
Example end_to_end :
  main flat_ave_qual no_summary sample_parsed [r1; r2]
  = {| stdout := [flat_read "r1" "GTACGTAC" 30]; status := Finished |}.
Proof. reflexivity. Qed.

Lemma mismatch_is_fatal_witness :
  ∃ pre rec post,
    [r1; r2] = pre ++ rec :: post
    ∧ Forall (λ r, is_Some (sample_data !! rec_id r)) pre
    ∧ sample_data !! rec_id rec = None
    ∧ status (filter_with sample_data [r1; r2] sample_parsed)
      = Failed (SysExit (mismatch_msg (rec_id rec)))
    ∧ (∃ before after,
         mismatch_msg (rec_id rec) = before +:+ rec_id rec +:+ after)
    ∧ exit_code (status (filter_with sample_data [r1; r2] sample_parsed)) ≠ 0
    ∧ status (filter_with sample_data pre sample_parsed) = Finished
    ∧ stdout (filter_with sample_data [r1; r2] sample_parsed)
      = stdout (filter_with sample_data pre sample_parsed).
Proof.
  apply (mismatch_is_fatal sample_data sample_parsed [r1; r2]).
  exists r2. split; [|reflexivity].
  apply list_elem_of_further, list_elem_of_here.
Defined.

Lemma filter_monotone_witness :
  (length (stdout (filter_stream flat_ave_qual [r1; r2]
                     (set_quality sample_parsed 30)))
   ≤ length (stdout (filter_stream flat_ave_qual [r1; r2] sample_parsed)))%nat
  ∧ (length (stdout (filter_stream flat_ave_qual [r1; r2]
                       (set_length sample_parsed 8)))
     ≤ length (stdout (filter_stream flat_ave_qual [r1; r2] sample_parsed)))%nat.
Proof.
  split.
  - apply (proj1 (filter_monotone flat_ave_qual sample_parsed [r1; r2] 30 8)).
    simpl. lia.
  - apply (proj2 (filter_monotone flat_ave_qual sample_parsed [r1; r2] 30 8)).
    simpl. lia.
Defined.

(** ** Quality aggregation *)

Section AggregatorFacts.

Import QualityAggregator.
Local Open Scope R_scope.

Lemma ln_10_pos : 0 < ln 10.
Proof. rewrite <- ln_1. apply ln_increasing; lra. Qed.

Lemma error_probability_pos q : 0 < error_probability q.
Proof. apply exp_pos. Qed.

Lemma error_probability_phred_score p :
  0 < p → error_probability (phred_score p) = p.
Proof.
  intros Hp. unfold error_probability, phred_score, Rpower.
  replace (- (-10 * (ln p / ln 10)) / 10 * ln 10) with (ln p).
  - by apply exp_ln.
  - field. pose proof ln_10_pos. lra.
Qed.

Lemma probability_sum_pos (ps : list R) :
  ps ≠ [] → Forall (λ p, 0 < p) ps → 0 < foldr Rplus 0 ps.
Proof.
  intros Hne Hall. induction Hall as [|p ps Hp Hall IH]; [done|]. simpl.
  destruct ps as [|p' ps]; [simpl; lra|].
  assert (0 < foldr Rplus 0 (p' :: ps)) by (by apply IH). lra.
Qed.

Lemma probability_mean_pos (ps : list R) :
  ps ≠ [] → Forall (λ p, 0 < p) ps → 0 < mean ps.
Proof.
  intros Hne Hall. unfold mean. apply Rdiv_lt_0_compat.
  - by apply probability_sum_pos.
  - apply lt_0_INR. destruct ps; [done|simpl; lia].
Qed.

Lemma error_probability_10 : error_probability 10 = / 10.
Proof.
  unfold error_probability. replace (Ropp 10 / 10) with (Ropp 1) by lra.
  rewrite Rpower_Ropp, Rpower_1; lra.
Qed.

(** C4. Quality aggregation averages error probabilities.  For a
    non-empty read the aggregate is the inverse Phred transform of the
    arithmetic mean of the error probabilities [10^(-q/10)] of its
    scores, so that its own error probability is that mean; for the
    scores 10, 10, 40 it is below 15, hence closer to 13 than to their
    arithmetic mean 20. *)
Theorem aggregate_averages_probabilities :
  (∀ quals : list Z, quals ≠ [] →
     ∃ a, ave_qual quals = Some a
          ∧ a = phred_score (mean (map (λ q, Rpower 10 (- IZR q / 10)) quals))
          ∧ error_probability a
            = mean (map (λ q, Rpower 10 (- IZR q / 10)) quals))
  ∧ (∃ a, ave_qual [10; 10; 40]%Z = Some a
          ∧ a < 15
          ∧ Rabs (a - 13) < Rabs (a - (10 + 10 + 40) / 3)).
Proof.
  split.
  - intros quals Hne. eexists. split; [by destruct quals|]. split; [done|].
    apply error_probability_phred_score, probability_mean_pos.
    + by destruct quals.
    + apply Forall_map, Forall_forall. intros q _. apply error_probability_pos.
  - eexists. split; [reflexivity|].
    set (m := mean _).
    assert (Hm : / 15 < m).
    { unfold m, mean. simpl. rewrite error_probability_10.
      pose proof (error_probability_pos 40). lra. }
    assert (Hmm : / 1000 < m * m) by nra.
    assert (Hln : - (3 * ln 10) < 2 * ln m).
    { replace (2 * ln m) with (ln (m * m)) by (rewrite ln_mult; lra).
      replace (- (3 * ln 10)) with (ln (/ 1000)).
      - apply ln_increasing; lra.
      - rewrite ln_Rinv by lra.
        replace 1000 with (10 * (10 * 10)) by lra.
        rewrite !ln_mult by lra. lra. }
    assert (Ha : phred_score m < 15).
    { unfold phred_score. pose proof ln_10_pos as H10.
      assert (- (3 / 2) < ln m / ln 10); [|lra].
      apply Rmult_lt_reg_r with (ln 10); [done|].
      unfold Rdiv. rewrite Rmult_assoc, Rinv_l by lra. lra. }
    split; [done|].
    unfold Rabs. repeat destruct (Rcase_abs _); lra.
Qed.

Lemma aggregate_averages_probabilities_witness :
  ∃ a, ave_qual [30; 20]%Z = Some a
       ∧ a = phred_score (mean (map (λ q, Rpower 10 (- IZR q / 10)) [30; 20]%Z))
       ∧ error_probability a
         = mean (map (λ q, Rpower 10 (- IZR q / 10)) [30; 20]%Z).
Proof.
  apply (proj1 aggregate_averages_probabilities [30; 20]%Z). discriminate.
Defined.

End AggregatorFacts.

(** ** The bounds of the GC filter *)

Lemma SFcompare_antisym (x y : float) :
  SFcompare y x = option_map CompOpp (SFcompare x y).
Proof.
  destruct x as [s|s| |s m e], y as [s'|s'| |s' m' e'];
    try destruct s; try destruct s'; try done; simpl;
    rewrite (Z.compare_antisym e e'); destruct (e ?= e'); simpl; try done;
    change (Pos.compare_cont Eq m' m) with (Pos.compare_cont (CompOpp Eq) m' m);
    rewrite <- (Pos.compare_cont_antisym m m' Eq);
    by destruct (Pos.compare_cont Eq m m').
Qed.

Lemma flt_false_fle (x y : float) :
  x ≠ S754_nan → y ≠ S754_nan → flt y x = false → fle x y = true.
Proof.
  unfold flt, fle, SFltb, SFleb. rewrite (SFcompare_antisym x y).
  intros Hx Hy. destruct (SFcompare x y) as [[]|] eqn:Hc; simpl; try done.
  by destruct x as [| | |[]], y as [| | |[]].
Qed.

Lemma fle_true_flt_false (x y : float) : fle x y = true → flt y x = false.
Proof.
  unfold flt, fle, SFltb, SFleb. rewrite (SFcompare_antisym x y).
  by destruct (SFcompare x y) as [[]|].
Qed.

(** X1. [valid_GC] lets through, unchanged, exactly the floats between 0.0
    and 1.0, both included, and NaN, which no comparison rules out. *)
Theorem valid_GC_accepts (x : float) :
  (valid_GC x = Some x
   ↔ x = S754_nan ∨ (fle f0_0 x = true ∧ fle x f1_0 = true))
  ∧ (∀ y, valid_GC x = Some y → y = x).
Proof.
  unfold valid_GC. split.
  - assert (Hnan : x = S754_nan ∨ x ≠ S754_nan) by (destruct x; by eauto).
    destruct Hnan as [->|Hx]; [by split; [left|]|].
    destruct (flt x f0_0) eqn:H0; simpl.
    { split; [done|]. intros [?|[H _]]; [done|].
      apply fle_true_flt_false in H. congruence. }
    destruct (flt f1_0 x) eqn:H1.
    { split; [done|]. intros [?|[_ H]]; [done|].
      apply fle_true_flt_false in H. congruence. }
    split; [intros _|done]. right. split; by apply flt_false_fle.
  - intros y. destruct (_ || _)%bool; congruence.
Qed.

(** X2. The arguments that leave [get_args] with bounds accepted by
    [valid_GC], neither of them NaN, satisfy 0.0 <= minGC <= maxGC <= 1.0. *)
Theorem get_args_bounds (parsed args : Args) :
  valid_GC (arg_minGC parsed) = Some (arg_minGC parsed) →
  valid_GC (arg_maxGC parsed) = Some (arg_maxGC parsed) →
  arg_minGC parsed ≠ S754_nan →
  arg_maxGC parsed ≠ S754_nan →
  get_args parsed = inr args →
  fle f0_0 (arg_minGC args) = true
  ∧ fle (arg_minGC args) (arg_maxGC args) = true
  ∧ fle (arg_maxGC args) f1_0 = true.
Proof.
  intros Hlo Hhi Nlo Nhi Hargs.
  destruct (get_args_fields _ _ Hargs) as (_ & _ & -> & -> & _).
  apply (proj1 (valid_GC_accepts _)) in Hlo as [?|[Hlo _]]; [done|].
  apply (proj1 (valid_GC_accepts _)) in Hhi as [?|[_ Hhi]]; [done|].
  split; [done|]. split; [|done].
  apply flt_false_fle; try done.
  unfold get_args in Hargs. by destruct (flt _ _).
Qed.

Lemma get_args_bounds_witness :
  fle f0_0 (arg_minGC (set_GC_filter gc_parsed true)) = true
  ∧ fle (arg_minGC (set_GC_filter gc_parsed true))
        (arg_maxGC (set_GC_filter gc_parsed true)) = true
  ∧ fle (arg_maxGC (set_GC_filter gc_parsed true)) f1_0 = true.
Proof.
  apply (get_args_bounds gc_parsed (set_GC_filter gc_parsed true));
    first [reflexivity | discriminate].
Defined.

(** ** More on the loops *)

Section PrintLoopOutcome.

Variable step : SeqRecord → failure + option SeqRecord.

(** A run that fails does so at its first record that fails, with the
    failure of that record. *)
Lemma print_loop_failed fq f :
  status (print_loop step fq []) = Failed f →
  ∃ pre rec post,
    fq = pre ++ rec :: post ∧ Forall (passes step) pre ∧ step rec = inl f.
Proof.
  induction fq as [|rec fq IH]; [done|].
  rewrite print_loop_cons. destruct (step rec) as [f'|o] eqn:Hrec; simpl.
  - intros [= <-]. by exists [], rec, fq.
  - intros (pre & rec' & post & -> & Hpre & Hf)%IH.
    exists (rec :: pre), rec', post. split; [done|].
    split; [|done]. constructor; [by exists o|done].
Qed.

Lemma print_loop_finished_iff fq :
  status (print_loop step fq []) = Finished ↔ Forall (passes step) fq.
Proof.
  split.
  - induction fq as [|rec fq IH]; [by constructor|].
    rewrite print_loop_cons. destruct (step rec) as [f|o] eqn:Hrec; [done|].
    simpl. intros H. constructor; [by exists o | by apply IH].
  - intros H. by rewrite (print_loop_finished _ _ H).
Qed.

(** A loop whose turns print their own record, or nothing, prints a
    subsequence of what it reads. *)
Lemma print_loop_sublist fq :
  (∀ rec r, step rec = inr (Some r) → r = rec) →
  stdout (print_loop step fq []) `sublist_of` fq.
Proof.
  intros Hsame. destruct (print_loop_stdout step fq) as [k ->].
  trans (take k fq); [|apply sublist_take]. generalize (take k fq). intros l.
  induction l as [|rec l IH]; simpl; [constructor|].
  unfold printed at 1. destruct (step rec) as [f|[r|]] eqn:Hrec.
  - by constructor.
  - rewrite (Hsame _ _ Hrec). by constructor.
  - by constructor.
Qed.

End PrintLoopOutcome.

(** ** How a run can end *)

Lemma gc_content_fails (rec : SeqRecord) (e : exception) :
  gc_content rec = inl e ↔ e = ZeroDivisionError ∧ rec_seq rec = [].
Proof.
  unfold gc_content, int_truediv, len.
  destruct (rec_seq rec) as [|c s]; simpl; [by split; [intros [= <-]|intros [-> _]]|].
  split; [done|]. by intros [_ ?].
Qed.

Lemma stream_step_fails ave_qual (args : Args) (rec : SeqRecord) (e : exception) :
  stream_step ave_qual args rec = inl e
  ↔ (e = ZeroDivisionError ∧ GC_filter args = true ∧ rec_seq rec = [])
    ∨ (e = AggregateError ∧ (GC_filter args = true → rec_seq rec ≠ [])
       ∧ ave_qual (phred_quality rec) = None).
Proof.
  unfold stream_step. destruct (GC_filter args).
  - destruct (gc_content rec) as [e'|gc] eqn:Hgc.
    + apply gc_content_fails in Hgc as [-> Hnil]. split.
      * intros [= <-]. by left.
      * intros [(-> & _)|(_ & Hne & _)]; [done|]. by destruct Hne.
    + assert (Hne : rec_seq rec ≠ []).
      { intros Hnil. assert (gc_content rec = inl ZeroDivisionError) as Hf
          by (by apply gc_content_fails). congruence. }
      destruct (ave_qual _) as [q|].
      * split; [by destruct (stream_test _ _ _ _)|].
        by intros [(_ & _ & ?)|(_ & _ & ?)].
      * split; [intros [= <-]; by right|]. by intros [(_ & _ & ?)|(-> & _)].
  - destruct (ave_qual _) as [q|].
    + split; [by destruct (stream_test _ _ _ _)|].
      by intros [(_ & ? & _)|(_ & _ & ?)].
    + split; [intros [= <-]; by right|]. by intros [(_ & ? & _)|(-> & _)].
Qed.

(** X3. The Stream Filter gets to the end of its stream iff no record is
    empty while GC filtering is on and the aggregator fails on none.  A run
    that stops does so on a division by zero at an empty record under GC
    filtering, or on a failure of the aggregator, never on [sys.exit].  A
    run that finishes prints exactly the records its turns accept. *)
Theorem stream_run_outcome ave_qual (args : Args) (fq : list SeqRecord) :
  (status (filter_stream ave_qual fq args) = Finished
   ↔ Forall (λ rec, (GC_filter args = true → rec_seq rec ≠ [])
                    ∧ is_Some (ave_qual (phred_quality rec))) fq)
  ∧ (∀ f, status (filter_stream ave_qual fq args) = Failed f →
          ∃ rec, rec ∈ fq
                 ∧ (f = Raised ZeroDivisionError
                    ∧ GC_filter args = true ∧ rec_seq rec = []
                    ∨ f = Raised AggregateError
                      ∧ ave_qual (phred_quality rec) = None))
  ∧ (status (filter_stream ave_qual fq args) = Finished →
     ∀ r, r ∈ stdout (filter_stream ave_qual fq args)
          ↔ ∃ rec, rec ∈ fq ∧ stream_step ave_qual args rec = inr (Some r)).
Proof.
  rewrite filter_stream_print.
  assert (Hpass : ∀ rec, passes (stream_turn ave_qual args) rec
                         ↔ (GC_filter args = true → rec_seq rec ≠ [])
                           ∧ is_Some (ave_qual (phred_quality rec))).
  { intros rec. unfold passes, stream_turn.
    destruct (stream_step ave_qual args rec) as [e|o] eqn:Hs.
    - split; [by intros [? ?]|]. intros [Hne [q Hq]]. exfalso.
      apply stream_step_fails in Hs as [(_ & HG & Hnil)|(_ & _ & Hnone)];
        [by apply Hne | congruence].
    - split; [intros _|by eauto]. split.
      + intros HG Hnil.
        assert (stream_step ave_qual args rec = inl ZeroDivisionError) as Hf
          by (apply stream_step_fails; by left). congruence.
      + destruct (ave_qual (phred_quality rec)) as [q|] eqn:Hq; [by eexists|].
        unfold stream_step in Hs. rewrite Hq in Hs.
        by destruct (if GC_filter args then _ else _). }
  split; [|split].
  - rewrite print_loop_finished_iff. apply Forall_iff, Hpass.
  - intros f (pre & rec & post & -> & _ & Hf)%print_loop_failed.
    exists rec. split; [apply elem_of_app; right; by left|].
    unfold stream_turn in Hf.
    destruct (stream_step ave_qual args rec) as [e|o] eqn:Hs; [|done].
    injection Hf as <-.
    apply stream_step_fails in Hs as [(-> & ? & ?)|(-> & _ & ?)]; [by left|by right].
  - intros Hfin%print_loop_finished_iff r.
    rewrite (print_loop_finished _ _ Hfin). simpl.
    rewrite list_elem_of_omap. unfold printed, stream_turn.
    split; intros (rec & Hin & Hp); exists rec; (split; [done|]).
    + by destruct (stream_step ave_qual args rec); simplify_eq.
    + by rewrite Hp.
Qed.

(** X4. The Summary-Joined Filter gets to the end of its stream iff every
    identifier is in the summary.  A run that stops does so by [sys.exit]
    at a record whose identifier is missing: it raises nothing, an empty
    record included.  A run that finishes prints exactly the records its
    turns accept. *)
Theorem summary_run_outcome (data : gmap string float) (args : Args)
  (fq : list SeqRecord) :
  (status (filter_with data fq args) = Finished
   ↔ Forall (λ rec, is_Some (data !! rec_id rec)) fq)
  ∧ (∀ f, status (filter_with data fq args) = Failed f →
          ∃ rec, rec ∈ fq ∧ data !! rec_id rec = None
                 ∧ f = SysExit (mismatch_msg (rec_id rec)))
  ∧ (status (filter_with data fq args) = Finished →
     ∀ r, r ∈ stdout (filter_with data fq args)
          ↔ ∃ rec, rec ∈ fq ∧ summary_step data args rec = Some (Some r)).
Proof.
  rewrite filter_with_print.
  assert (Hpass : ∀ rec, passes (summary_turn data args) rec
                         ↔ is_Some (data !! rec_id rec)).
  { intros rec. unfold passes, summary_turn, summary_step.
    destruct (data !! rec_id rec) as [q|].
    - split; [by eauto|]. intros _. destruct (summary_test _ _ _); eauto.
    - split; [by intros [? ?]|]. by intros [? ?]. }
  split; [|split].
  - rewrite print_loop_finished_iff. apply Forall_iff, Hpass.
  - intros f (pre & rec & post & -> & _ & Hf)%print_loop_failed.
    exists rec. split; [apply elem_of_app; right; by left|].
    unfold summary_turn, summary_step in Hf.
    destruct (data !! rec_id rec) as [q|]; [by destruct (summary_test _ _ _)|].
    by injection Hf as <-.
  - intros Hfin%print_loop_finished_iff r.
    rewrite (print_loop_finished _ _ Hfin). simpl.
    rewrite list_elem_of_omap. unfold printed, summary_turn.
    split; intros (rec & Hin & Hp); exists rec; (split; [done|]).
    + by destruct (summary_step data args rec) as [[?|]|]; simplify_eq.
    + by rewrite Hp.
Qed.

(** ** Configuration errors *)

Lemma mismatch_msg_not_gc_order (name : string) : mismatch_msg name ≠ gc_order_msg.
Proof. discriminate. Qed.

(** X5. [main] ends with the message on --minGC and --maxGC iff minGC is
    greater than maxGC; nothing is printed then, whatever the stream, and
    the exit status is 1. *)
Theorem configuration_error ave_qual process_summary (parsed : Args)
  (stdin : list SeqRecord) :
  (flt (arg_maxGC parsed) (arg_minGC parsed) = true
   ↔ status (main ave_qual process_summary parsed stdin)
     = Failed (SysExit gc_order_msg))
  ∧ (flt (arg_maxGC parsed) (arg_minGC parsed) = true →
     stdout (main ave_qual process_summary parsed stdin) = []
     ∧ exit_code (status (main ave_qual process_summary parsed stdin)) = 1).
Proof.
  unfold main. destruct (get_args parsed) as [msg|args0] eqn:Hg.
  { unfold get_args in Hg.
    destruct (flt (arg_maxGC parsed) (arg_minGC parsed));
      [by injection Hg as <- | by destruct (_ && _)%bool]. }
  assert (Hf : flt (arg_maxGC parsed) (arg_minGC parsed) = false).
  { unfold get_args in Hg. by destruct (flt _ _). }
  rewrite Hf. split; [|done]. split; [done|].
  set (args := normalise_tailcrop _).
  destruct (uses_summary args).
  - unfold filter_using_summary.
    intros (rec & _ & _ & Hmsg)%summary_run_outcome.
    exfalso. apply (mismatch_msg_not_gc_order (rec_id rec)). congruence.
  - intros (rec & _ & [(? & _)|(? & _)])%stream_run_outcome; done.
Qed.

Lemma configuration_error_witness :
  stdout (main flat_ave_qual no_summary (set_GC default_parsed f1_0 f0_1 false)
               [r1; r2]) = []
  ∧ exit_code (status (main flat_ave_qual no_summary
                            (set_GC default_parsed f1_0 f0_1 false) [r1; r2])) = 1.
Proof.
  exact (proj2 (configuration_error flat_ave_qual no_summary
                  (set_GC default_parsed f1_0 f0_1 false) [r1; r2]) eq_refl).
Defined.

Lemma SFcompare_nan_r (x : float) : SFcompare x S754_nan = None.
Proof. by destruct x. Qed.

(** X6. A bound of the GC filter that is NaN passes [valid_GC] and
    [get_args]; GC filtering is then on and the Stream Filter prints no
    record at all. *)
Theorem nan_bound_prints_nothing ave_qual process_summary (parsed : Args)
  (stdin : list SeqRecord) :
  arg_minGC parsed = S754_nan ∨ arg_maxGC parsed = S754_nan →
  uses_summary parsed = false →
  valid_GC S754_nan = Some S754_nan
  ∧ get_args parsed = inr (set_GC_filter parsed true)
  ∧ stdout (main ave_qual process_summary parsed stdin) = [].
Proof.
  intros Hnan Hstream. split; [done|].
  assert (Hargs : get_args parsed = inr (set_GC_filter parsed true)).
  { unfold get_args, flt, feq, SFltb, SFeqb.
    destruct Hnan as [-> | ->]; rewrite ?SFcompare_nan_r; simpl; try done.
    by destruct (SFcompare (arg_minGC parsed) f0_0) as [[]|]. }
  split; [done|]. unfold main. rewrite Hargs.
  set (args := normalise_tailcrop _).
  assert (Hsum : uses_summary args = false).
  { unfold uses_summary, args.
    by rewrite (proj1 (proj2 (proj2 (proj2 (proj2 (proj2
                 (normalise_tailcrop_fields _))))))). }
  rewrite Hsum. apply elem_of_nil_inv. intros r.
  rewrite filter_stream_print.
  intros (rec & _ & Hturn)%print_loop_elem.
  unfold stream_turn, stream_step in Hturn.
  destruct (if GC_filter args then _ else _) as [e|gc]; [done|].
  destruct (ave_qual _) as [q|]; [|done].
  assert (Htest : stream_test args rec gc q = false); [|by rewrite Htest in Hturn].
  unfold stream_test.
  destruct (normalise_tailcrop_fields (set_GC_filter parsed true))
    as (_ & _ & Hlo & Hhi & _).
  fold args in Hlo, Hhi. rewrite Hlo, Hhi. simpl.
  unfold fle, SFleb.
  destruct Hnan as [-> | ->]; rewrite ?SFcompare_nan_r; simpl.
  - by rewrite andb_false_r.
  - by rewrite !andb_false_r.
Qed.

Lemma nan_bound_prints_nothing_witness :
  stdout (main flat_ave_qual no_summary
               (set_GC default_parsed S754_nan f1_0 false) [r1; r2; r3]) = [].
Proof.
  exact (proj2 (proj2 (nan_bound_prints_nothing flat_ave_qual no_summary
                         (set_GC default_parsed S754_nan f1_0 false) [r1; r2; r3]
                         (or_introl eq_refl) eq_refl))).
Defined.

(** ** The summary as a dictionary *)

Lemma summary_dict_snoc (rows : list (string * float)) (entry : string * float) :
  summary_dict (rows ++ [entry]) = <[entry.1 := entry.2]> (summary_dict rows).
Proof. unfold summary_dict. by rewrite fold_left_app. Qed.

(** X7. In the dictionary built from the rows of the summary, a read has
    the value of the last row that names it, and it is missing iff no row
    names it. *)
Theorem summary_dict_lookup (rows rest : list (string * float))
  (name : string) (q : float) :
  (name ∉ rest.*1 → summary_dict (rows ++ (name, q) :: rest) !! name = Some q)
  ∧ (summary_dict rows !! name = None ↔ name ∉ rows.*1).
Proof.
  split.
  - induction rest as [|entry rest IH] using rev_ind; intros Hnot.
    + change (rows ++ [(name, q)]) with (rows ++ [(name, q)]).
      rewrite summary_dict_snoc. apply lookup_insert_eq.
    + rewrite fmap_app, not_elem_of_app in Hnot. destruct Hnot as [Hrest Hentry].
      rewrite app_comm_cons, app_assoc, summary_dict_snoc.
      rewrite lookup_insert_ne; [by apply IH|].
      intros Heq. apply Hentry. simpl. rewrite Heq. by left.
  - induction rows as [|entry rows IH] using rev_ind.
    + split; [intros _; apply not_elem_of_nil | done].
    + rewrite summary_dict_snoc, lookup_insert_None, fmap_app, not_elem_of_app, IH.
      simpl. rewrite not_elem_of_cons. split.
      * intros [? ?]. split; [done|]. split; [done|apply not_elem_of_nil].
      * intros [? [? _]]. by split.
Qed.

Lemma summary_dict_lookup_witness :
  summary_dict ([("r1", f0_5)] ++ ("r1", f1_0) :: [("r2", f0_0)]) !! "r1"
  = Some f1_0.
Proof.
  apply (proj1 (summary_dict_lookup [("r1", f0_5)] [("r2", f0_0)] "r1" f1_0)).
  simpl. intros [H|H]%elem_of_cons; [discriminate H | by apply elem_of_nil in H].
Defined.

(** X8. Monotonicity on the summary path.  For a fixed stream and summary,
    a larger minimum quality, or a larger minimum length, makes the
    Summary-Joined Filter print a subsequence of what it printed, and the
    run ends the same way, a mismatch included. *)
Theorem summary_filter_monotone (data : gmap string float) (args : Args)
  (fq : list SeqRecord) (q' n' : Z) :
  (arg_quality args ≤ q' →
   stdout (filter_with data fq (set_quality args q'))
     `sublist_of` stdout (filter_with data fq args)
   ∧ status (filter_with data fq (set_quality args q'))
     = status (filter_with data fq args))
  ∧ (arg_length args ≤ n' →
     stdout (filter_with data fq (set_length args n'))
       `sublist_of` stdout (filter_with data fq args)
     ∧ status (filter_with data fq (set_length args n'))
       = status (filter_with data fq args)).
Proof.
  split; intros Hge; rewrite !filter_with_print; apply print_loop_mono;
    intros rec; unfold step_le, summary_turn, summary_step, summary_test; simpl;
    (destruct (data !! rec_id rec) as [q|]; [|done]).
  - destruct (float_gt_int q q') eqn:Hq'; simpl.
    + rewrite (float_gt_int_mono q _ _ Hge Hq'). simpl. by destruct (_ <? _).
    + by destruct (_ && _)%bool.
  - destruct (float_gt_int q _); simpl; [|done].
    destruct (Z.ltb_spec n' (len rec)); simpl.
    + by destruct (Z.ltb_spec (arg_length args) (len rec)); [|lia].
    + by destruct (_ <? _).
Qed.

Lemma summary_filter_monotone_witness :
  stdout (filter_with sample_data [r1] (set_quality sample_parsed 12))
    `sublist_of` stdout (filter_with sample_data [r1] sample_parsed)
  ∧ stdout (filter_with sample_data [r1] (set_length sample_parsed 10))
      `sublist_of` stdout (filter_with sample_data [r1] sample_parsed).
Proof.
  split.
  - apply (proj1 (summary_filter_monotone sample_data sample_parsed [r1] 12 10)).
    simpl. lia.
  - apply (proj2 (summary_filter_monotone sample_data sample_parsed [r1] 12 10)).
    simpl. lia.
Defined.

(** ** What trimming keeps *)

(** A slice is cut at two positions that depend on the length alone. *)
Lemma slice_positions {A} (l : list A) (start stop : option Z) :
  ∃ m n, ∀ B (l' : list B),
    length l' = length l → slice l' start stop = take n (drop m l').
Proof.
  eexists _, _. intros B l' Hlen. unfold slice. rewrite Hlen. reflexivity.
Qed.

Lemma slice_all {A} (l : list A) : slice l None None = l.
Proof. rewrite slice_from by done. apply drop_0. Qed.

Lemma rec_slice_all (rec : SeqRecord) : rec_slice rec None None = rec.
Proof. destruct rec. unfold rec_slice. simpl. by rewrite !slice_all. Qed.

(** Whatever [main] prints is the slice of a record it read, for the
    arguments [get_args] returned; the record passed the length test of
    its path. *)
Lemma main_prints ave_qual process_summary (parsed : Args)
  (stdin : list SeqRecord) (r : SeqRecord) :
  r ∈ stdout (main ave_qual process_summary parsed stdin) →
  ∃ args rec,
    get_args parsed = inr args ∧ rec ∈ stdin
    ∧ r = rec_slice rec (arg_headcrop (normalise_tailcrop args))
                        (arg_tailcrop (normalise_tailcrop args))
    ∧ (if uses_summary parsed
       then arg_length parsed < len rec
       else minlen (normalise_tailcrop args) < len rec).
Proof.
  unfold main. destruct (get_args parsed) as [msg|args] eqn:Hargs.
  { by intros ?%elem_of_nil. }
  destruct (get_args_fields _ _ Hargs) as (El & _ & _ & _ & _ & _ & Es & _).
  destruct (normalise_tailcrop_fields args) as (El' & _ & _ & _ & _ & Es' & _).
  assert (Hsum : uses_summary (normalise_tailcrop args) = uses_summary parsed).
  { unfold uses_summary. by rewrite Es', Es. }
  rewrite Hsum. destruct (uses_summary parsed).
  - unfold filter_using_summary. rewrite filter_with_print.
    intros (rec & Hin & Hturn)%print_loop_elem. exists args, rec.
    split; [done|]. split; [done|].
    unfold summary_turn, summary_step in Hturn.
    destruct (_ !! rec_id rec) as [q|]; [|done].
    unfold summary_test in Hturn.
    destruct (float_gt_int q _); [|done]. simpl in Hturn.
    destruct (Z.ltb_spec (arg_length (normalise_tailcrop args)) (len rec));
      [|done].
    split; [by simplify_eq | lia].
  - rewrite filter_stream_print.
    intros (rec & Hin & Hturn)%print_loop_elem. exists args, rec.
    split; [done|]. split; [done|].
    apply (stream_step_slice ave_qual). unfold stream_turn in Hturn.
    destruct (stream_step _ _ _); by simplify_eq.
Qed.

(** X9. Trimming keeps sequence and scores aligned, whatever the crops.  If
    the records read have one score per base, every record [main] prints,
    on either path, has one score per base, carries the identifier of a
    record read, and its bases and its scores are the same run of
    positions of that record's bases and scores. *)
Theorem output_records_aligned ave_qual process_summary (parsed : Args)
  (stdin : list SeqRecord) :
  Forall well_formed stdin →
  ∀ r, r ∈ stdout (main ave_qual process_summary parsed stdin) →
       well_formed r
       ∧ ∃ rec m n,
           rec ∈ stdin ∧ rec_id r = rec_id rec
           ∧ rec_seq r = take n (drop m (rec_seq rec))
           ∧ phred_quality r = take n (drop m (phred_quality rec)).
Proof.
  intros Hwf r (args & rec & _ & Hin & -> & _)%main_prints.
  pose proof (proj1 (Forall_forall _ _) Hwf rec Hin) as Hrec.
  unfold well_formed in Hrec.
  destruct (slice_positions (rec_seq rec)
              (arg_headcrop (normalise_tailcrop args))
              (arg_tailcrop (normalise_tailcrop args))) as (m & n & Hcut).
  unfold well_formed. simpl.
  rewrite (Hcut _ (rec_seq rec) eq_refl), (Hcut _ (phred_quality rec) Hrec).
  split.
  - rewrite !length_take, !length_drop. lia.
  - by exists rec, m, n.
Qed.

Lemma output_records_aligned_witness :
  well_formed (flat_read "r1" "GTACGTAC" 30)
  ∧ ∃ rec m n,
      rec ∈ [r1; r2] ∧ rec_id (flat_read "r1" "GTACGTAC" 30) = rec_id rec
      ∧ rec_seq (flat_read "r1" "GTACGTAC" 30) = take n (drop m (rec_seq rec))
      ∧ phred_quality (flat_read "r1" "GTACGTAC" 30)
        = take n (drop m (phred_quality rec)).
Proof.
  apply (output_records_aligned flat_ave_qual no_summary sample_parsed [r1; r2]).
  - repeat constructor.
  - vm_compute. left.
Defined.

(** X10. Without a head crop and without a tail crop [main] prints records
    as it read them: its output is a subsequence of its input, record for
    record, on either path. *)
Theorem no_crop_passes_through ave_qual process_summary (parsed : Args)
  (stdin : list SeqRecord) :
  arg_headcrop parsed = None →
  arg_tailcrop parsed = None →
  stdout (main ave_qual process_summary parsed stdin) `sublist_of` stdin.
Proof.
  intros Hh Ht. unfold main.
  destruct (get_args parsed) as [msg|args] eqn:Hargs; [apply sublist_nil_l|].
  destruct (get_args_fields _ _ Hargs) as (_ & _ & _ & _ & Eh & Et & _).
  assert (Hn : normalise_tailcrop args = args).
  { unfold normalise_tailcrop, truthy. by rewrite Et, Ht. }
  rewrite Hn. destruct (uses_summary args).
  - unfold filter_using_summary. rewrite filter_with_print.
    apply print_loop_sublist. intros rec r Hturn.
    unfold summary_turn in Hturn.
    destruct (summary_step _ _ _) as [o|] eqn:Hs; [|done].
    injection Hturn as ->. apply summary_step_slice in Hs.
    by rewrite Hs, Eh, Et, Hh, Ht, rec_slice_all.
  - rewrite filter_stream_print.
    apply print_loop_sublist. intros rec r Hturn.
    unfold stream_turn in Hturn.
    destruct (stream_step _ _ _) as [e|o] eqn:Hs; [done|].
    injection Hturn as ->. apply stream_step_slice in Hs as [Hs _].
    by rewrite Hs, Eh, Et, Hh, Ht, rec_slice_all.
Qed.

Lemma no_crop_passes_through_witness :
  stdout (main flat_ave_qual no_summary default_parsed [r1; r2; r3])
    `sublist_of` [r1; r2; r3].
Proof.
  exact (no_crop_passes_through flat_ave_qual no_summary default_parsed
           [r1; r2; r3] eq_refl eq_refl).
Defined.

(** The range kept by a head crop [h] and a tail crop typed as [t], not 0,
    and negated: from position [h], as many as [length - h - t] items,
    none if that is negative. *)
Lemma slice_crop {A} (l : list A) (start stop : option Z) (h t : Z) :
  or_zero start = h → 0 ≤ h →
  (stop = None ∧ t = 0 ∨ stop = Some (- t) ∧ 0 < t) →
  slice l start stop
  = take (Z.to_nat (Z.of_nat (length l) - h - t)) (drop (Z.to_nat h) l).
Proof.
  intros Hstart Hh Hstop.
  destruct (Z.le_gt_cases (h + t) (Z.of_nat (length l))) as [Hfit|Hshort].
  { by apply slice_range. }
  replace (Z.to_nat (Z.of_nat (length l) - h - t)) with 0%nat by lia.
  rewrite take_0. unfold slice.
  set (lo := match start with Some i => _ | None => 0 end).
  set (hi := match stop with Some j => _ | None => _ end).
  assert (Hlo : lo = Z.min h (Z.of_nat (length l))).
  { unfold lo. destruct start as [i|]; simpl in Hstart; subst h; [|lia].
    unfold adjust_index. by destruct (Z.ltb_spec i 0); [lia|]. }
  assert (Hhi : hi = Z.max 0 (Z.of_nat (length l) - t)).
  { unfold hi. destruct Hstop as [[-> ->]|[-> Ht]]; [lia|].
    unfold adjust_index. destruct (Z.ltb_spec (- t) 0); lia. }
  replace (Z.to_nat (hi - lo)) with 0%nat by lia. apply take_0.
Qed.

(** X11. What is left of a trimmed read.  For a head crop [h] and a tail
    crop [t], each absent (counting 0) or not negative, [t] not typed as
    0, a record [main] prints on either path has [max 0 (length - h - t)]
    bases, [length] being that of the record read.  On the stream path
    that is more than the minimum length; on the summary path the record
    read is only known to be longer than the minimum length itself. *)
Theorem trimmed_length ave_qual process_summary (parsed : Args)
  (stdin : list SeqRecord) :
  0 ≤ or_zero (arg_headcrop parsed) →
  0 ≤ or_zero (arg_tailcrop parsed) →
  arg_tailcrop parsed ≠ Some 0 →
  ∀ r, r ∈ stdout (main ave_qual process_summary parsed stdin) →
       ∃ rec, rec ∈ stdin ∧ rec_id r = rec_id rec
              ∧ Z.of_nat (length (rec_seq r))
                = Z.max 0 (len rec - or_zero (arg_headcrop parsed)
                           - or_zero (arg_tailcrop parsed))
              ∧ (if uses_summary parsed
                 then arg_length parsed < len rec
                 else arg_length parsed < Z.of_nat (length (rec_seq r))).
Proof.
  intros Hh Ht Ht0 r (args & rec & Hargs & Hin & -> & Hlen)%main_prints.
  destruct (get_args_fields _ _ Hargs) as (El & _ & _ & _ & Eh & Et & _).
  destruct (normalise_tailcrop_fields args) as (El' & _ & _ & _ & Eh' & _ & _ & Et').
  set (h := or_zero (arg_headcrop parsed)) in *.
  set (t := or_zero (arg_tailcrop parsed)) in *.
  assert (Hstop : arg_tailcrop (normalise_tailcrop args) = None ∧ t = 0
                  ∨ arg_tailcrop (normalise_tailcrop args) = Some (- t) ∧ 0 < t).
  { unfold normalise_tailcrop, truthy, t. rewrite Et.
    destruct (arg_tailcrop parsed) as [n|] eqn:En; cbn [or_zero] in *.
    - destruct (Z.eqb_spec n 0) as [->|Hn]; [done|]. right.
      split; [done|lia].
    - left. by rewrite Et. }
  assert (Hstart : or_zero (arg_headcrop (normalise_tailcrop args)) = h).
  { by rewrite Eh', Eh. }
  exists rec. split; [done|]. split; [done|]. simpl.
  rewrite (slice_crop (rec_seq rec) _ _ h t Hstart Hh Hstop).
  rewrite length_take, length_drop. fold (len rec).
  assert (Hcount : Z.of_nat (Z.to_nat (Z.of_nat (length (rec_seq rec)) - h - t)
                             `min` (length (rec_seq rec) - Z.to_nat h))
                   = Z.max 0 (len rec - h - t)) by (unfold len; lia).
  split; [done|].
  destruct (uses_summary parsed); [done|].
  unfold minlen in Hlen. rewrite El', Eh', Et', El, Eh, Et in Hlen.
  fold h t in Hlen. unfold len in *. lia.
Qed.

Lemma trimmed_length_witness :
  ∃ rec, rec ∈ [r1; r2] ∧ rec_id (flat_read "r1" "GTACGTAC" 30) = rec_id rec
         ∧ Z.of_nat (length (rec_seq (flat_read "r1" "GTACGTAC" 30)))
           = Z.max 0 (len rec - 2 - 0)
         ∧ 5 < Z.of_nat (length (rec_seq (flat_read "r1" "GTACGTAC" 30))).
Proof.
  apply (trimmed_length flat_ave_qual no_summary sample_parsed [r1; r2]).
  - simpl. lia.
  - simpl. lia.
  - discriminate.
  - vm_compute. left.
Defined.

(** A stop position that is positive counts from the start. *)
Lemma slice_to {A} (l : list A) (start : option Z) (h k : Z) :
  or_zero start = h → 0 ≤ h → 0 < k →
  slice l start (Some k) = drop (Z.to_nat h) (take (Z.to_nat k) l).
Proof.
  intros Hstart Hh Hk. unfold slice.
  set (lo := match start with Some i => _ | None => 0 end).
  assert (Hlo : lo = Z.min h (Z.of_nat (length l))).
  { unfold lo. destruct start as [i|]; simpl in Hstart; subst h; [|lia].
    unfold adjust_index. by destruct (Z.ltb_spec i 0); [lia|]. }
  unfold adjust_index. destruct (Z.ltb_spec k 0); [lia|].
  destruct (Z.le_gt_cases (Z.of_nat (length l)) h) as [Hlong|Hin].
  - rewrite (drop_ge l (Z.to_nat lo)) by lia.
    rewrite (drop_ge (take _ l)) by (rewrite length_take; lia).
    apply take_nil.
  - replace lo with h by lia.
    destruct (Z.le_gt_cases h (Z.min k (Z.of_nat (length l)))) as [Hkeep|Hnone].
    + rewrite take_drop_commute.
      replace (Z.to_nat h + Z.to_nat (Z.min k (Z.of_nat (length l)) - h))%nat
        with (Z.to_nat k `min` length l)%nat by lia.
      by rewrite <- take_take, (take_ge l (length l)).
    + replace (Z.to_nat (Z.min k (Z.of_nat (length l)) - h)) with 0%nat by lia.
      rewrite take_0, drop_ge; [done|]. rewrite length_take. lia.
Qed.

(** X12. A tail crop typed as a negative number does not crop the end.
    [main] negates it into a positive stop position, so that for
    [--tailcrop -k] and a head crop [h], absent or not negative, every
    record printed on either path holds the bases and scores of positions
    [h] to [k] of the record read: the read is cut down to its first [k]
    bases, less the head crop. *)
Theorem negative_tailcrop_truncates ave_qual process_summary (parsed : Args)
  (stdin : list SeqRecord) (t : Z) :
  arg_tailcrop parsed = Some t →
  t < 0 →
  0 ≤ or_zero (arg_headcrop parsed) →
  ∀ r, r ∈ stdout (main ave_qual process_summary parsed stdin) →
       ∃ rec, rec ∈ stdin ∧ rec_id r = rec_id rec
              ∧ rec_seq r
                = drop (Z.to_nat (or_zero (arg_headcrop parsed)))
                       (take (Z.to_nat (- t)) (rec_seq rec))
              ∧ phred_quality r
                = drop (Z.to_nat (or_zero (arg_headcrop parsed)))
                       (take (Z.to_nat (- t)) (phred_quality rec)).
Proof.
  intros Ht Hneg Hh r (args & rec & Hargs & Hin & -> & _)%main_prints.
  destruct (get_args_fields _ _ Hargs) as (_ & _ & _ & _ & Eh & Et & _).
  destruct (normalise_tailcrop_fields args) as (_ & _ & _ & _ & Eh' & _).
  assert (Hstop : arg_tailcrop (normalise_tailcrop args) = Some (- t)).
  { unfold normalise_tailcrop, truthy. rewrite Et, Ht.
    destruct (Z.eqb_spec t 0); [lia|]. done. }
  assert (Hstart : or_zero (arg_headcrop (normalise_tailcrop args))
                   = or_zero (arg_headcrop parsed)) by (by rewrite Eh', Eh).
  exists rec. split; [done|]. split; [done|]. simpl. rewrite Hstop.
  by rewrite !(slice_to _ _ _ (- t) Hstart Hh) by lia.
Qed.

Lemma negative_tailcrop_truncates_witness :
  ∃ rec, rec ∈ [r1] ∧ rec_id (flat_read "r1" "GTACGTA" 30) = rec_id rec
         ∧ rec_seq (flat_read "r1" "GTACGTA" 30) = drop 2 (take 9 (rec_seq rec))
         ∧ phred_quality (flat_read "r1" "GTACGTA" 30)
           = drop 2 (take 9 (phred_quality rec)).
Proof.
  apply (negative_tailcrop_truncates flat_ave_qual no_summary
           (set_tailcrop sample_parsed (Some (-9))) [r1] (-9) eq_refl).
  - lia.
  - simpl. lia.
  - vm_compute. left.
Defined.

(** X13. The two crops do not interfere.  For a head crop [h], not
    negative, and a tail crop [t], negated and not 0, slicing a record by
    both at once gives what slicing by the head crop and then by the tail
    crop gives, and what slicing by the tail crop and then by the head
    crop gives. *)
Theorem crops_commute (rec : SeqRecord) (h t : Z) :
  0 ≤ h → 0 < t →
  rec_slice (rec_slice rec (Some h) None) None (Some (- t))
  = rec_slice rec (Some h) (Some (- t))
  ∧ rec_slice (rec_slice rec None (Some (- t))) (Some h) None
    = rec_slice rec (Some h) (Some (- t)).
Proof.
  intros Hh Ht.
  assert (Hboth : ∀ {A} (l : list A),
    slice l (Some h) (Some (- t))
    = take (Z.to_nat (Z.of_nat (length l) - h - t)) (drop (Z.to_nat h) l)).
  { intros A l. apply slice_crop; [done|done|]. right. by split. }
  assert (Hhead : ∀ {A} (l : list A),
    slice (slice l (Some h) None) None (Some (- t)) = slice l (Some h) (Some (- t))).
  { intros A l. rewrite Hboth, (slice_from l (Some h)) by done. simpl.
    rewrite (slice_crop _ None (Some (- t)) 0 t) by (done || right; by split).
    rewrite drop_0, length_drop. f_equal. lia. }
  assert (Htail : ∀ {A} (l : list A),
    slice (slice l None (Some (- t))) (Some h) None = slice l (Some h) (Some (- t))).
  { intros A l. rewrite Hboth.
    rewrite (slice_crop l None (Some (- t)) 0 t) by (done || right; by split).
    rewrite drop_0, (slice_from _ (Some h)) by done. simpl.
    destruct (Z.le_gt_cases (h + t) (Z.of_nat (length l))).
    - rewrite take_drop_commute. do 2 f_equal. lia.
    - replace (Z.to_nat (Z.of_nat (length l) - h - t)) with 0%nat by lia.
      rewrite take_0, drop_ge; [done|]. rewrite length_take. lia. }
  unfold rec_slice. simpl. by rewrite !Hhead, !Htail.
Qed.

Lemma crops_commute_witness :
  rec_slice (rec_slice r1 (Some 2) None) None (Some (- 3))
  = rec_slice r1 (Some 2) (Some (- 3))
  ∧ rec_slice (rec_slice r1 None (Some (- 3))) (Some 2) None
    = rec_slice r1 (Some 2) (Some (- 3)).
Proof. apply (crops_commute r1 2 3); lia. Defined.

(** ** The help epilog *)

Lemma append_length (a b : string) :
  String.length (a +:+ b) = (String.length a + String.length b)%nat.
Proof. induction a as [|c a IH]; simpl; [done|]. by rewrite IH. Qed.

Lemma join_empty_cons (line : string) (lines : list string) :
  join_empty (line :: lines) = line +:+ join_empty lines.
Proof. reflexivity. Qed.

Lemma join_splitlines_upto (n : nat) (text : string) :
  (String.length text ≤ n)%nat →
  join_empty (splitlines_keepends text) = text
  ∧ Forall (λ line, line ≠ EmptyString) (splitlines_keepends text).
Proof.
  revert text. induction n as [|n IH]; intros text Hlen.
  { destruct text; [by split; [|constructor] | simpl in Hlen; lia]. }
  destruct text as [|c rest]; [by split; [|constructor]|].
  simpl in Hlen. cbn [splitlines_keepends].
  destruct (IH rest ltac:(lia)) as [Hrest Hne].
  destruct (Ascii.eqb c (ascii_of_nat 13)).
  - destruct rest as [|c' rest']; [by split; [|repeat constructor]|].
    destruct (Ascii.eqb c' (ascii_of_nat 10)).
    + simpl in Hlen. destruct (IH rest' ltac:(lia)) as [Hrest' Hne'].
      split; [by rewrite join_empty_cons, Hrest' | by constructor].
    + split; [by rewrite join_empty_cons, Hrest | by constructor].
  - destruct (is_line_break c).
    + split; [by rewrite join_empty_cons, Hrest | by constructor].
    + destruct (splitlines_keepends rest) as [|line lines].
      * simpl in Hrest. subst rest. by split; [|repeat constructor].
      * rewrite join_empty_cons in Hrest. apply Forall_cons in Hne as [_ Hne].
        split; [|by constructor]. rewrite join_empty_cons.
        change (String c line +:+ join_empty lines)
          with (String c (line +:+ join_empty lines)).
        by rewrite Hrest.
Qed.

Lemma join_indented_length (indent : string) (lines : list string) :
  String.length (join_empty ((λ line, indent +:+ line) <$> lines))
  = (String.length indent * length lines + String.length (join_empty lines))%nat.
Proof.
  induction lines as [|line lines IH]; [simpl; lia|].
  rewrite fmap_cons, !join_empty_cons, !append_length, IH. simpl length. lia.
Qed.

Lemma splitlines_head (c : ascii) (rest : string) :
  ∃ line lines, splitlines_keepends (String c rest) = String c line :: lines.
Proof.
  cbn [splitlines_keepends]. destruct (Ascii.eqb c (ascii_of_nat 13)).
  - destruct rest as [|c' rest']; [by eexists _, _|].
    destruct (Ascii.eqb c' (ascii_of_nat 10)); by eexists _, _.
  - destruct (is_line_break c); [by eexists _, _|].
    destruct (splitlines_keepends rest); by eexists _, _.
Qed.

Lemma terminated_single (c : ascii) :
  is_line_break c = true → terminated (String c EmptyString).
Proof. intros Hc. by exists EmptyString, (String c EmptyString). Qed.

Lemma terminated_cons (c : ascii) (line : string) :
  is_line_break c = false → terminated line → terminated (String c line).
Proof.
  intros Hc (body & term & -> & Hbody & Hterm).
  exists (String c body), term. split; [done|]. split; [|done].
  simpl. by rewrite Hc.
Qed.

Lemma unterminated_cons (c : ascii) (line : string) :
  is_line_break c = false →
  line = EmptyString ∨ unterminated line → unterminated (String c line).
Proof.
  intros Hc Hline. split; [done|]. simpl. rewrite Hc. simpl.
  by destruct Hline as [-> | [_ ?]].
Qed.

Lemma cuts_CRLF_cons (c : ascii) (line next : string) :
  Ascii.eqb c (ascii_of_nat 13) = false →
  cuts_CRLF (String c line) next → line ≠ EmptyString ∧ cuts_CRLF line next.
Proof.
  intros Hc [[body Hbody] Hnext]. destruct body as [|c0 body].
  - simpl in Hbody. injection Hbody as -> _. by rewrite Ascii.eqb_refl in Hc.
  - simpl in Hbody. injection Hbody as _ ->. split.
    + by destruct body.
    + split; [by exists body | done].
Qed.

Lemma well_cut_upto (n : nat) (text : string) :
  (String.length text ≤ n)%nat → well_cut (splitlines_keepends text).
Proof.
  revert text. induction n as [|n IH]; intros text Hlen.
  { destruct text; [done | simpl in Hlen; lia]. }
  destruct text as [|c rest]; [done|].
  simpl in Hlen. cbn [splitlines_keepends].
  pose proof (IH rest ltac:(lia)) as Hrest.
  destruct (Ascii.eqb c (ascii_of_nat 13)) eqn:Hcr.
  - apply Ascii.eqb_eq in Hcr as ->.
    destruct rest as [|c' rest']; [left; by apply terminated_single|].
    destruct (Ascii.eqb c' (ascii_of_nat 10)) eqn:Hlf.
    + apply Ascii.eqb_eq in Hlf as ->. simpl in Hlen.
      pose proof (IH rest' ltac:(lia)) as Hrest'.
      assert (Hterm : terminated (String (ascii_of_nat 13)
                                    (String (ascii_of_nat 10) EmptyString))).
      { by exists EmptyString, (String (ascii_of_nat 13)
                                  (String (ascii_of_nat 10) EmptyString)). }
      cbn [well_cut]. destruct (splitlines_keepends rest') as [|next lines];
        [by left|].
      split; [done|]. split; [|done].
      intros [[body Hbody] _]. destruct body as [|c0 [|c1 body]]; try done.
      simpl in Hbody. injection Hbody as _ _ Hbody. by destruct body.
    + destruct (splitlines_head c' rest') as (line & lines & Hhead).
      rewrite Hhead in *. cbn [well_cut].
      split; [by apply terminated_single|]. split; [|done].
      intros [_ [rest'' Hnext]]. injection Hnext as -> _.
      by rewrite Ascii.eqb_refl in Hlf.
  - destruct (is_line_break c) eqn:Hc.
    + cbn [well_cut]. destruct (splitlines_keepends rest) as [|next lines];
        [left; by apply terminated_single|].
      split; [by apply terminated_single|]. split; [|done].
      intros [[body Hbody] _]. destruct body as [|c0 body].
      * simpl in Hbody. injection Hbody as ->. by rewrite Ascii.eqb_refl in Hcr.
      * simpl in Hbody. injection Hbody as _ Hbody. by destruct body.
    + destruct (splitlines_keepends rest) as [|line lines].
      * right. apply unterminated_cons; [done | by left].
      * cbn [well_cut] in *. destruct lines as [|next lines].
        -- destruct Hrest as [Hterm | Hopen].
           ++ left. by apply terminated_cons.
           ++ right. apply unterminated_cons; [done | by right].
        -- destruct Hrest as (Hterm & Hcut & Hwell).
           split; [by apply terminated_cons|]. split; [|done].
           intros Hcuts. apply Hcut.
           by apply (cuts_CRLF_cons c) in Hcuts as [_ ?].
Qed.

(** X14. [_fill_text] keeps the lines of the text it is given.  The text is
    cut into its lines, terminators kept: each piece is a stretch free of
    line boundaries followed by one terminator, only the last may lack it,
    no CR LF is cut in two, none is empty, and their concatenation is the
    text again.  The result is the concatenation of these lines, each with
    the indentation before it.  With no indentation the text comes back
    unchanged; in general its length grows by the indentation once per
    line.  The width plays no part. *)
Theorem fill_text_keeps_lines (text : string) (width : Z) (indent : string) :
  let lines := splitlines_keepends text in
  join_empty lines = text
  ∧ well_cut lines
  ∧ Forall (λ line, line ≠ EmptyString) lines
  ∧ _fill_text text width indent
    = join_empty ((λ line, indent +:+ line) <$> lines)
  ∧ _fill_text text width EmptyString = text
  ∧ String.length (_fill_text text width indent)
    = (String.length text + String.length indent * length lines)%nat.
Proof.
  intros lines.
  destruct (join_splitlines_upto (String.length text) text (le_n _))
    as [Hjoin Hne].
  pose proof (well_cut_upto (String.length text) text (le_n _)) as Hcut.
  split; [done|]. split; [done|]. split; [done|]. split; [done|].
  unfold _fill_text. split.
  - rewrite <- Hjoin at 2. f_equal. by rewrite list_fmap_id.
  - rewrite join_indented_length, Hjoin. unfold lines. lia.
Qed.

(** Two lines, the first ended by CR LF, under an indentation of two. *)
Example fill_text_sample :
  _fill_text ("EXAMPLES:" +:+ String (ascii_of_nat 13) nl +:+ "NanoFilt -q 10")
             80 "  "
  = "  EXAMPLES:" +:+ String (ascii_of_nat 13) nl +:+ "  NanoFilt -q 10".
Proof. reflexivity. Qed.

(** ** The two paths side by side *)

Lemma print_loop_mono_on step1 step2 (fq : list SeqRecord) :
  Forall (λ rec, step_le (step2 rec) (step1 rec)) fq →
  stdout (print_loop step2 fq []) `sublist_of` stdout (print_loop step1 fq [])
  ∧ status (print_loop step2 fq []) = status (print_loop step1 fq []).
Proof.
  induction 1 as [|rec fq Hle _ [IHo IHs]]; [done|].
  rewrite !print_loop_cons. unfold step_le in Hle.
  destruct (step2 rec) as [o2|[r2|]], (step1 rec) as [o1|[r1|]];
    simplify_eq; simpl; try done.
  - split; [by constructor | done].
  - split; [by constructor | done].
Qed.

Lemma print_loop_ext_on step1 step2 (fq : list SeqRecord) :
  Forall (λ rec, step1 rec = step2 rec) fq →
  print_loop step1 fq [] = print_loop step2 fq [].
Proof.
  induction 1 as [|rec fq Heq _ IH]; [done|].
  by rewrite !print_loop_cons, Heq, IH.
Qed.

(** X15. The summary path lets through at least what the stream path does.
    With GC filtering off, crops that are absent or not negative, and a
    summary that gives every record of the stream the value the aggregator
    computes for it, both paths get to the end of the stream, and what the
    Stream Filter prints is a subsequence of what the Summary-Joined Filter
    prints.  With no crop at all the two runs are the same. *)
Theorem summary_path_more_permissive ave_qual (data : gmap string float)
  (parsed args : Args) (fq : list SeqRecord) :
  get_args parsed = inr args →
  GC_filter args = false →
  0 ≤ or_zero (arg_headcrop parsed) →
  0 ≤ or_zero (arg_tailcrop parsed) →
  Forall (λ rec, ∃ q, ave_qual (phred_quality rec) = Some q
                      ∧ data !! rec_id rec = Some q) fq →
  let args' := normalise_tailcrop args in
  stdout (filter_stream ave_qual fq args')
    `sublist_of` stdout (filter_with data fq args')
  ∧ status (filter_stream ave_qual fq args') = Finished
  ∧ status (filter_with data fq args') = Finished
  ∧ (arg_headcrop parsed = None → arg_tailcrop parsed = None →
     filter_stream ave_qual fq args' = filter_with data fq args').
Proof.
  intros Hargs HG Hh Ht Hq args'.
  destruct (get_args_fields _ _ Hargs) as (El & _ & Elo & Ehi & Eh & Et & _ & Hgc).
  destruct (normalise_tailcrop_fields args)
    as (El' & _ & Elo' & Ehi' & Eh' & _ & HG' & Et').
  fold args' in El', Elo', Ehi', Eh', HG', Et'.
  destruct (proj1 Hgc HG) as [H0 H1].
  assert (Hturns : ∀ rec q,
    ave_qual (phred_quality rec) = Some q → data !! rec_id rec = Some q →
    stream_turn ave_qual args' rec
    = inr (if float_gt_int q (arg_quality args') && (minlen args' <? len rec)
           then Some (rec_slice rec (arg_headcrop args') (arg_tailcrop args'))
           else None)
    ∧ summary_turn data args' rec
      = inr (if float_gt_int q (arg_quality args') && (arg_length args' <? len rec)
             then Some (rec_slice rec (arg_headcrop args') (arg_tailcrop args'))
             else None)).
  { intros rec q Ha Hd. unfold stream_turn, stream_step, stream_test,
      summary_turn, summary_step, summary_test.
    rewrite HG', HG, Ha, Hd, Elo', Ehi', Elo, Ehi.
    rewrite (feq_zero_fle_half _ H0), (feq_one_half_fle _ H1), andb_true_r.
    split; by destruct (_ && _)%bool. }
  assert (Hminlen : arg_length args' ≤ minlen args').
  { unfold minlen. rewrite Eh', Et', Eh, Et. lia. }
  rewrite filter_stream_print, filter_with_print.
  destruct (print_loop_mono_on (summary_turn data args')
              (stream_turn ave_qual args') fq) as [Hsub Hst].
  { eapply Forall_impl; [exact Hq|]. intros rec (q & Ha & Hd). cbv beta.
    destruct (Hturns rec q Ha Hd) as [-> ->]. unfold step_le.
    destruct (float_gt_int q _); simpl; [|done].
    destruct (Z.ltb_spec (minlen args') (len rec)); [|done].
    by destruct (Z.ltb_spec (arg_length args') (len rec)); [|lia]. }
  assert (Hfin : status (print_loop (summary_turn data args') fq []) = Finished).
  { apply print_loop_finished_iff. eapply Forall_impl; [exact Hq|].
    intros rec (q & Ha & Hd). destruct (Hturns rec q Ha Hd) as [_ Hs].
    by eexists. }
  split; [done|]. split; [by rewrite Hst|]. split; [done|].
  intros Hhn Htn. apply print_loop_ext_on.
  eapply Forall_impl; [exact Hq|]. intros rec (q & Ha & Hd). cbv beta.
  destruct (Hturns rec q Ha Hd) as [-> ->].
  replace (minlen args') with (arg_length args'); [done|].
  unfold minlen. rewrite Eh', Et', Eh, Et, Hhn, Htn. simpl. lia.
Qed.

Lemma summary_path_more_permissive_witness :
  stdout (filter_stream flat_ave_qual [r1; r6] (normalise_tailcrop sample_parsed))
    `sublist_of`
    stdout (filter_with agreeing_data [r1; r6] (normalise_tailcrop sample_parsed))
  ∧ filter_stream flat_ave_qual [r1; r6] (normalise_tailcrop default_parsed)
    = filter_with agreeing_data [r1; r6] (normalise_tailcrop default_parsed).
Proof.
  assert (Hagree : Forall (λ rec, ∃ q, flat_ave_qual (phred_quality rec) = Some q
                                       ∧ agreeing_data !! rec_id rec = Some q)
                          [r1; r6]).
  { repeat constructor; exists (float_of_int 30); split; reflexivity. }
  split.
  - apply (summary_path_more_permissive flat_ave_qual agreeing_data
             sample_parsed sample_parsed [r1; r6] eq_refl eq_refl).
    + simpl. lia.
    + simpl. lia.
    + exact Hagree.
  - apply (summary_path_more_permissive flat_ave_qual agreeing_data
             default_parsed default_parsed [r1; r6] eq_refl eq_refl).
    + simpl. lia.
    + simpl. lia.
    + exact Hagree.
    + reflexivity.
    + reflexivity.
Defined.

(** Under [-l 5 -q 10 --headcrop 2] the read of six bases is too short for
    the stream path, which wants more than seven, and long enough for the
    summary path, which wants more than five. *)
Example summary_path_prints_more :
  stdout (filter_stream flat_ave_qual [r1; r6] (normalise_tailcrop sample_parsed))
  = [flat_read "r1" "GTACGTAC" 30]
  ∧ stdout (filter_with agreeing_data [r1; r6] (normalise_tailcrop sample_parsed))
    = [flat_read "r1" "GTACGTAC" 30; flat_read "r6" "GTAC" 30]
  ∧ stdout (filter_stream flat_ave_qual [r1; r6] (normalise_tailcrop default_parsed))
    = [r1; r6].
Proof. by vm_compute. Qed.

(** ** Filtering twice *)

Lemma omap_fixed {A} (f : A → option A) (l : list A) :
  Forall (λ x, f x = Some x) l → omap f l = l.
Proof.
  induction 1 as [|x l Hx _ IH]; [done|].
  cbn [omap list_omap]. rewrite Hx. f_equal. exact IH.
Qed.

Lemma print_loop_again step (fq : list SeqRecord) :
  (∀ rec r, step rec = inr (Some r) → r = rec) →
  print_loop step (stdout (print_loop step fq [])) []
  = {| stdout := stdout (print_loop step fq []); status := Finished |}.
Proof.
  intros Hsame. destruct (print_loop_stdout step fq) as [k ->].
  assert (Hkept : Forall (λ x, step x = inr (Some x))
                         (omap (printed step) (take k fq))).
  { apply Forall_forall. intros x (rec & _ & Hp)%list_elem_of_omap.
    unfold printed in Hp. destruct (step rec) as [f|o] eqn:Hs; [done|].
    subst o. pose proof (Hsame _ _ Hs) as Hx. by subst x. }
  rewrite print_loop_finished.
  - f_equal. apply omap_fixed. eapply Forall_impl; [exact Hkept|].
    intros x Hx. unfold printed. by rewrite Hx.
  - eapply Forall_impl; [exact Hkept|]. intros x Hx. exists (Some x). exact Hx.
Qed.

(** X16. Without crops, filtering is idempotent.  If the arguments pass
    [get_args] and name neither a head crop nor a tail crop, feeding [main]
    its own output gives that output again, and the second run gets to its
    end even if the first one did not. *)
Theorem filtering_twice ave_qual process_summary (parsed args : Args)
  (stdin : list SeqRecord) :
  get_args parsed = inr args →
  arg_headcrop parsed = None →
  arg_tailcrop parsed = None →
  main ave_qual process_summary parsed
       (stdout (main ave_qual process_summary parsed stdin))
  = {| stdout := stdout (main ave_qual process_summary parsed stdin);
       status := Finished |}.
Proof.
  intros Hargs Hh Ht. unfold main. rewrite Hargs.
  destruct (get_args_fields _ _ Hargs) as (_ & _ & _ & _ & Eh & Et & _).
  assert (Hn : normalise_tailcrop args = args).
  { unfold normalise_tailcrop, truthy. by rewrite Et, Ht. }
  rewrite Hn. destruct (uses_summary args).
  - unfold filter_using_summary. rewrite !filter_with_print.
    apply print_loop_again. intros rec r Hturn.
    unfold summary_turn in Hturn.
    destruct (summary_step _ _ _) as [o|] eqn:Hs; [|done].
    injection Hturn as ->. apply summary_step_slice in Hs.
    by rewrite Hs, Eh, Et, Hh, Ht, rec_slice_all.
  - rewrite !filter_stream_print.
    apply print_loop_again. intros rec r Hturn.
    unfold stream_turn in Hturn.
    destruct (stream_step _ _ _) as [e|o] eqn:Hs; [done|].
    injection Hturn as ->. apply stream_step_slice in Hs as [Hs _].
    by rewrite Hs, Eh, Et, Hh, Ht, rec_slice_all.
Qed.

Lemma filtering_twice_witness :
  main flat_ave_qual no_summary default_parsed
       (stdout (main flat_ave_qual no_summary default_parsed [r1; r2; r3]))
  = {| stdout := stdout (main flat_ave_qual no_summary default_parsed [r1; r2; r3]);
       status := Finished |}.
Proof.
  exact (filtering_twice flat_ave_qual no_summary default_parsed default_parsed
           [r1; r2; r3] eq_refl eq_refl eq_refl).
Defined.

(** ** A stream run that stops *)

(** X17. A run of the Stream Filter that does not get to the end stops at
    a record that raises, after records that all went through: the outcome
    is the exception of that record, and what is printed is what the
    records before it print on their own, in a run that finishes. *)
Theorem stream_stops_at_first_failure ave_qual (args : Args)
  (fq : list SeqRecord) (f : failure) :
  status (filter_stream ave_qual fq args) = Failed f →
  ∃ pre rec post e,
    fq = pre ++ rec :: post
    ∧ f = Raised e
    ∧ stream_step ave_qual args rec = inl e
    ∧ Forall (λ r, ∃ o, stream_step ave_qual args r = inr o) pre
    ∧ status (filter_stream ave_qual pre args) = Finished
    ∧ stdout (filter_stream ave_qual fq args)
      = stdout (filter_stream ave_qual pre args).
Proof.
  rewrite !filter_stream_print.
  intros (pre & rec & post & -> & Hpre & Hf)%print_loop_failed.
  unfold stream_turn in Hf.
  destruct (stream_step ave_qual args rec) as [e|o] eqn:Hs; [|done].
  injection Hf as <-. exists pre, rec, post, e.
  split; [done|]. split; [done|]. split; [done|]. split.
  { eapply Forall_impl; [exact Hpre|]. intros r [o Ho].
    unfold stream_turn in Ho.
    destruct (stream_step ave_qual args r) as [e'|o']; [done|by exists o']. }
  rewrite !filter_stream_print.
  rewrite (print_loop_first_failure _ pre rec post (Raised e) Hpre)
    by (unfold stream_turn; by rewrite Hs).
  by rewrite (print_loop_finished _ pre Hpre).
Qed.

Lemma stream_stops_at_first_failure_witness :
  ∃ pre rec post e,
    [r1; emptied "r4"; r3] = pre ++ rec :: post
    ∧ Raised ZeroDivisionError = Raised e
    ∧ stream_step flat_ave_qual (set_GC_filter gc_parsed true) rec = inl e
    ∧ Forall (λ r, ∃ o, stream_step flat_ave_qual
                          (set_GC_filter gc_parsed true) r = inr o) pre
    ∧ status (filter_stream flat_ave_qual pre (set_GC_filter gc_parsed true))
      = Finished
    ∧ stdout (filter_stream flat_ave_qual [r1; emptied "r4"; r3]
                (set_GC_filter gc_parsed true))
      = stdout (filter_stream flat_ave_qual pre (set_GC_filter gc_parsed true)).
Proof.
  exact (stream_stops_at_first_failure flat_ave_qual
           (set_GC_filter gc_parsed true) [r1; emptied "r4"; r3]
           (Raised ZeroDivisionError) eq_refl).
Defined.

(** ** Further sample runs *)

Lemma valid_GC_accepts_witness : valid_GC f0_5 = Some f0_5.
Proof.
  exact (proj2 (proj1 (valid_GC_accepts f0_5))
               (or_intror (conj eq_refl eq_refl))).
Defined.

Lemma stream_run_outcome_witness :
  status (filter_stream flat_ave_qual [r1; r2] sample_parsed) = Finished.
Proof.
  apply (proj2 (proj1 (stream_run_outcome flat_ave_qual sample_parsed [r1; r2]))).
  repeat constructor; try discriminate; by eexists.
Defined.

Lemma summary_run_outcome_witness :
  status (filter_with sample_data [r1] sample_parsed) = Finished.
Proof.
  apply (proj2 (proj1 (summary_run_outcome sample_data sample_parsed [r1]))).
  repeat constructor. by eexists.
Defined.

(** ** Acceptance, on whole runs *)

Lemma get_args_readtype (parsed args : Args) :
  get_args parsed = inr args →
  arg_readtype (normalise_tailcrop args) = arg_readtype parsed
  ∧ arg_summary (normalise_tailcrop args) = arg_summary parsed
  ∧ uses_summary (normalise_tailcrop args) = uses_summary parsed.
Proof.
  intros Hargs.
  assert (Hr : arg_readtype args = arg_readtype parsed).
  { unfold get_args in Hargs. destruct (flt _ _); [done|].
    by destruct (_ && _)%bool; injection Hargs as <-. }
  destruct (get_args_fields _ _ Hargs) as (_ & _ & _ & _ & _ & _ & Es & _).
  destruct (normalise_tailcrop_fields args) as (_ & _ & _ & _ & _ & Es' & _).
  assert (Hr' : arg_readtype (normalise_tailcrop args) = arg_readtype args).
  { unfold normalise_tailcrop. by destruct (truthy _). }
  split; [by rewrite Hr'|]. split; [by rewrite Es'|].
  unfold uses_summary. by rewrite Es', Es.
Qed.

Lemma uses_summary_false (args : Args) :
  arg_summary args = None ∨ arg_summary args = Some EmptyString →
  uses_summary args = false.
Proof. unfold uses_summary. by intros [-> | ->]. Qed.

Lemma uses_summary_true (args : Args) (name : string) :
  arg_summary args = Some name → name ≠ EmptyString → uses_summary args = true.
Proof.
  unfold uses_summary. intros -> Hne.
  destruct (String.eqb_spec name EmptyString); done.
Qed.

Lemma main_on_stream ave_qual process_summary (parsed args : Args)
  (fq : list SeqRecord) :
  get_args parsed = inr args → uses_summary parsed = false →
  main ave_qual process_summary parsed fq
  = filter_stream ave_qual fq (normalise_tailcrop args).
Proof.
  intros Hargs Hs. unfold main. rewrite Hargs.
  by rewrite (proj2 (proj2 (get_args_readtype _ _ Hargs))), Hs.
Qed.

Lemma main_on_summary ave_qual process_summary (parsed args : Args)
  (fq : list SeqRecord) :
  get_args parsed = inr args → uses_summary parsed = true →
  main ave_qual process_summary parsed fq
  = filter_using_summary process_summary fq (normalise_tailcrop args).
Proof.
  intros Hargs Hs. unfold main. rewrite Hargs.
  by rewrite (proj2 (proj2 (get_args_readtype _ _ Hargs))), Hs.
Qed.

(** After a stretch of stream that went through, one more record adds to
    the output what its turn prints, and nothing else. *)
Lemma print_loop_snoc step (pre : list SeqRecord) (rec : SeqRecord) :
  status (print_loop step pre []) = Finished →
  stdout (print_loop step (pre ++ [rec]) [])
  = stdout (print_loop step pre []) ++ option_list (printed step rec).
Proof.
  intros Hpre. rewrite print_loop_app, (print_loop_cons step rec []).
  unfold run_then, printed. rewrite Hpre.
  destruct (step rec) as [f|o]; simpl; [done|]. by rewrite app_nil_r.
Qed.

Lemma print_loop_emits step (pre post : list SeqRecord) (rec r : SeqRecord) :
  status (print_loop step pre []) = Finished →
  step rec = inr (Some r) →
  r ∈ stdout (print_loop step (pre ++ rec :: post) []).
Proof.
  intros Hpre Hrec. rewrite print_loop_app, (print_loop_cons step rec post), Hrec.
  unfold run_then. rewrite Hpre. simpl.
  apply elem_of_app. right. by left.
Qed.

Lemma app_singleton_inv {A} (l : list A) (o : option A) (x : A) :
  (l ++ option_list o = l ++ [x] ↔ o = Some x)
  ∧ (l ++ option_list o = l ↔ o = None).
Proof.
  split; split.
  - intros H%app_inv_head. destruct o; simpl in H; by simplify_eq.
  - by intros ->.
  - intros H. rewrite <- (app_nil_r l) in H at 2. apply app_inv_head in H.
    by destruct o.
  - intros ->. apply app_nil_r.
Qed.

(** C1. Stream Filter acceptance.  [main] without a summary file is
    [filter_stream] on the arguments with the tail crop normalised.  For a
    record the run gets to, that is a record after a stretch of stream that
    went through, the run prints the trimmed record, right after what it
    printed before, iff the aggregate quality exceeds the minimum quality,
    the untrimmed length exceeds minimum length + head crop + tail crop
    (the crops as typed, absent counting 0), and the GC fraction lies
    between [minGC] and [maxGC], both included; it prints nothing for the
    record iff that fails.  The GC condition is dropped when GC filtering
    is off, which is when [minGC == 0.0] and [maxGC == 1.0].  What follows
    the record is run afresh after it, so that an accepted record is in the
    output of the whole stream. *)
Theorem stream_filter_acceptance ave_qual process_summary (parsed args : Args)
  (pre post : list SeqRecord) (rec : SeqRecord) :
  get_args parsed = inr args →
  arg_summary parsed = None ∨ arg_summary parsed = Some EmptyString →
  status (main ave_qual process_summary parsed pre) = Finished →
  let args' := normalise_tailcrop args in
  let emitted := rec_slice rec (arg_headcrop args') (arg_tailcrop args') in
  let accepted :=
    (∃ q, ave_qual (phred_quality rec) = Some q
          ∧ float_gt_int q (arg_quality parsed) = true)
    ∧ arg_length parsed + or_zero (arg_headcrop parsed)
      + or_zero (arg_tailcrop parsed) < len rec
    ∧ (GC_filter args = false
       ∨ ∃ gc, gc_content rec = inr gc
               ∧ fle (arg_minGC parsed) gc = true
               ∧ fle gc (arg_maxGC parsed) = true) in
  (∀ fq, main ave_qual process_summary parsed fq = filter_stream ave_qual fq args')
  ∧ (accepted
     ↔ stdout (main ave_qual process_summary parsed (pre ++ [rec]))
       = stdout (main ave_qual process_summary parsed pre) ++ [emitted])
  ∧ (¬ accepted
     ↔ stdout (main ave_qual process_summary parsed (pre ++ [rec]))
       = stdout (main ave_qual process_summary parsed pre))
  ∧ main ave_qual process_summary parsed (pre ++ rec :: post)
    = run_then (main ave_qual process_summary parsed (pre ++ [rec]))
               (main ave_qual process_summary parsed post)
  ∧ (accepted →
     emitted ∈ stdout (main ave_qual process_summary parsed (pre ++ rec :: post)))
  ∧ (GC_filter args = false
     ↔ feq (arg_minGC parsed) f0_0 = true ∧ feq (arg_maxGC parsed) f1_0 = true).
Proof.
  intros Hargs Hstream%uses_summary_false Hpre args' emitted accepted.
  assert (Hmain : ∀ fq, main ave_qual process_summary parsed fq
                        = filter_stream ave_qual fq args').
  { intros fq. by apply main_on_stream. }
  destruct (stream_step_acceptance ave_qual parsed args rec Hargs)
    as (Hacc & Honly & HGC).
  fold args' emitted accepted in Hacc, Honly.
  rewrite !Hmain in *. rewrite filter_stream_print in Hpre.
  assert (Hprinted : accepted
                     ↔ printed (stream_turn ave_qual args') rec = Some emitted).
  { rewrite <- Hacc. unfold printed, stream_turn.
    destruct (stream_step ave_qual args' rec) as [e|o]; [by split|].
    split; [by intros [= ->] | by intros ->]. }
  assert (Hnone : ¬ accepted ↔ printed (stream_turn ave_qual args') rec = None).
  { rewrite Hprinted. unfold printed, stream_turn.
    destruct (stream_step ave_qual args' rec) as [e|[r|]] eqn:Hs; [by split| |by split].
    rewrite (Honly r eq_refl). split; [intros H; by destruct H | done]. }
  split; [done|]. rewrite !filter_stream_print.
  rewrite (print_loop_snoc _ _ _ Hpre).
  split; [by rewrite (proj1 (app_singleton_inv _ _ _))|].
  split; [by rewrite (proj2 (app_singleton_inv _ _ emitted))|].
  split.
  { replace (pre ++ rec :: post) with ((pre ++ [rec]) ++ post)
      by (by rewrite <- app_assoc).
    apply print_loop_app. }
  split; [|done].
  intros Ha%Hacc. apply print_loop_emits; [done|].
  unfold stream_turn. by rewrite Ha.
Qed.

Lemma stream_filter_acceptance_witness :
  stdout (main flat_ave_qual no_summary sample_parsed ([r2] ++ [r1]))
  = stdout (main flat_ave_qual no_summary sample_parsed [r2])
    ++ [flat_read "r1" "GTACGTAC" 30]
  ∧ flat_read "r1" "GTACGTAC" 30
    ∈ stdout (main flat_ave_qual no_summary sample_parsed ([r2] ++ r1 :: [r3])).
Proof.
  pose proof (stream_filter_acceptance flat_ave_qual no_summary
                sample_parsed sample_parsed [r2] [r3] r1
                eq_refl (or_introl eq_refl) eq_refl)
    as (_ & Hiff & _ & _ & Hin & _).
  assert (Hacc : (∃ q, flat_ave_qual (phred_quality r1) = Some q
                       ∧ float_gt_int q (arg_quality sample_parsed) = true)
                 ∧ arg_length sample_parsed + or_zero (arg_headcrop sample_parsed)
                   + or_zero (arg_tailcrop sample_parsed) < len r1
                 ∧ (GC_filter sample_parsed = false
                    ∨ ∃ gc, gc_content r1 = inr gc
                            ∧ fle (arg_minGC sample_parsed) gc = true
                            ∧ fle gc (arg_maxGC sample_parsed) = true)).
  { split; [exists (float_of_int 30); split; reflexivity|].
    split; [reflexivity|]. left. reflexivity. }
  split; [exact (proj1 Hiff Hacc) | exact (Hin Hacc)].
Defined.

Lemma summary_step_set_GC (data : gmap string float) (args : Args)
  (lo hi : float) (b : bool) (rec : SeqRecord) :
  summary_step data (set_GC args lo hi b) rec = summary_step data args rec.
Proof. reflexivity. Qed.

(** C2. Summary-Joined Filter acceptance.  [main] with a summary file is
    [filter_using_summary], which is the loop over the dictionary built
    from the rows of the summary.  For a record the run gets to, whose
    identifier is in the summary with value [q], the run prints the trimmed
    record, right after what it printed before, iff [q] exceeds the minimum
    quality and the untrimmed length exceeds the minimum length as
    configured, no crop added; it prints nothing for the record iff that
    fails.  What follows the record is run afresh after it, so that an
    accepted record is in the output of the whole stream.  Neither
    [minGC], [maxGC] nor [GC_filter] has any say in a run. *)
Theorem summary_filter_acceptance ave_qual process_summary (parsed args : Args)
  (name : string) (pre post : list SeqRecord) (rec : SeqRecord) (q : float) :
  get_args parsed = inr args →
  arg_summary parsed = Some name →
  name ≠ EmptyString →
  summary_dict (process_summary name (arg_readtype parsed)) !! rec_id rec
  = Some q →
  status (main ave_qual process_summary parsed pre) = Finished →
  let args' := normalise_tailcrop args in
  let data := summary_dict (process_summary name (arg_readtype parsed)) in
  let emitted := rec_slice rec (arg_headcrop args') (arg_tailcrop args') in
  let accepted :=
    float_gt_int q (arg_quality parsed) = true ∧ arg_length parsed < len rec in
  (∀ fq, main ave_qual process_summary parsed fq
         = filter_using_summary process_summary fq args'
         ∧ filter_using_summary process_summary fq args' = filter_with data fq args')
  ∧ (accepted
     ↔ stdout (main ave_qual process_summary parsed (pre ++ [rec]))
       = stdout (main ave_qual process_summary parsed pre) ++ [emitted])
  ∧ (¬ accepted
     ↔ stdout (main ave_qual process_summary parsed (pre ++ [rec]))
       = stdout (main ave_qual process_summary parsed pre))
  ∧ main ave_qual process_summary parsed (pre ++ rec :: post)
    = run_then (main ave_qual process_summary parsed (pre ++ [rec]))
               (main ave_qual process_summary parsed post)
  ∧ (accepted →
     emitted ∈ stdout (main ave_qual process_summary parsed (pre ++ rec :: post)))
  ∧ (∀ lo hi b fq,
       filter_using_summary process_summary fq (set_GC args' lo hi b)
       = filter_using_summary process_summary fq args').
Proof.
  intros Hargs Hname Hne Hq Hpre args' data emitted accepted.
  pose proof (uses_summary_true _ _ Hname Hne) as Hsum.
  change (data !! rec_id rec = Some q) in Hq.
  destruct (get_args_readtype _ _ Hargs) as (Er & Es & _).
  destruct (get_args_fields _ _ Hargs) as (El & Eq & _).
  destruct (normalise_tailcrop_fields args) as (El' & Eq' & _).
  fold args' in Er, Es, El', Eq'.
  assert (Hwith : ∀ fq, filter_using_summary process_summary fq args'
                        = filter_with data fq args').
  { intros fq. unfold filter_using_summary, data. by rewrite Er, Es, Hname. }
  assert (Hmain : ∀ fq, main ave_qual process_summary parsed fq
                        = filter_with data fq args').
  { intros fq. rewrite <- Hwith. by apply main_on_summary. }
  destruct (summary_step_acceptance data args' rec q Hq) as (Hacc & Hrej & _).
  rewrite Eq', El', Eq, El in Hacc, Hrej. fold emitted accepted in Hacc, Hrej.
  split; [intros fq; split; [by rewrite Hmain, Hwith | apply Hwith]|].
  rewrite !Hmain in *. rewrite filter_with_print in Hpre.
  assert (Hprinted : accepted
                     ↔ printed (summary_turn data args') rec = Some emitted).
  { rewrite <- Hacc. unfold printed, summary_turn.
    destruct (summary_step data args' rec) as [o|] eqn:Hs.
    - split; [by intros [= ->] | by intros ->].
    - unfold summary_step in Hs. rewrite Hq in Hs.
      by destruct (summary_test _ _ _). }
  assert (Hnone : ¬ accepted ↔ printed (summary_turn data args') rec = None).
  { rewrite <- Hrej. unfold printed, summary_turn.
    destruct (summary_step data args' rec) as [o|] eqn:Hs.
    - split; [by intros [= ->] | by intros ->].
    - unfold summary_step in Hs. rewrite Hq in Hs.
      by destruct (summary_test _ _ _). }
  rewrite !filter_with_print. rewrite (print_loop_snoc _ _ _ Hpre).
  split; [by rewrite (proj1 (app_singleton_inv _ _ _))|].
  split; [by rewrite (proj2 (app_singleton_inv _ _ emitted))|].
  split.
  { replace (pre ++ rec :: post) with ((pre ++ [rec]) ++ post)
      by (by rewrite <- app_assoc).
    apply print_loop_app. }
  split.
  { intros Ha%Hacc. apply print_loop_emits; [done|].
    unfold summary_turn. by rewrite Ha. }
  intros lo hi b fq. unfold filter_using_summary. simpl.
  rewrite !filter_with_print. apply print_loop_ext_on, Forall_forall.
  intros r _. unfold summary_turn. by rewrite summary_step_set_GC.
Qed.

Lemma summary_filter_acceptance_witness :
  stdout (main flat_ave_qual sample_rows summary_parsed ([r1] ++ [r7]))
  = stdout (main flat_ave_qual sample_rows summary_parsed [r1])
    ++ [flat_read "r7" "GTACG" 5]
  ∧ flat_read "r7" "GTACG" 5
    ∈ stdout (main flat_ave_qual sample_rows summary_parsed ([r1] ++ r7 :: [r1])).
Proof.
  pose proof (summary_filter_acceptance flat_ave_qual sample_rows
                summary_parsed summary_parsed "sequencing_summary.txt"
                [r1] [r1] r7 (float_of_int 12)
                eq_refl eq_refl ltac:(discriminate) eq_refl) as H.
  assert (Hpre : status (main flat_ave_qual sample_rows summary_parsed [r1])
                 = Finished).
  { vm_compute. reflexivity. }
  destruct (H Hpre) as (_ & Hiff & _ & _ & Hin & _).
  assert (Hacc : float_gt_int (float_of_int 12) (arg_quality summary_parsed) = true
                 ∧ arg_length summary_parsed < len r7).
  { split; reflexivity. }
  split; [exact (proj1 Hiff Hacc) | exact (Hin Hacc)].
Defined.

(** ** A tail crop typed as 0 *)

Lemma get_args_set_tailcrop (parsed args : Args) (t : option Z) :
  get_args parsed = inr args →
  get_args (set_tailcrop parsed t) = inr (set_tailcrop args t).
Proof.
  unfold get_args. simpl. destruct (flt _ _); [done|].
  by destruct (_ && _)%bool; intros [= <-].
Qed.

Lemma rec_slice_stop_zero (rec : SeqRecord) (start : option Z) :
  rec_slice rec start (Some 0) = emptied (rec_id rec).
Proof. unfold rec_slice, emptied. by rewrite !slice_stop_zero. Qed.

(** Two loops whose turns fail alike and print alike up to a change of the
    record printed. *)
Lemma print_loop_map (g : SeqRecord → SeqRecord) step0 stepN
  (fq : list SeqRecord) :
  (∀ rec, step0 rec = match stepN rec with
                      | inl f => inl f
                      | inr o => inr (g <$> o)
                      end) →
  stdout (print_loop step0 fq []) = g <$> stdout (print_loop stepN fq [])
  ∧ status (print_loop step0 fq []) = status (print_loop stepN fq []).
Proof.
  intros Hstep. induction fq as [|rec fq [IHo IHs]]; [done|].
  rewrite !print_loop_cons, Hstep.
  destruct (stepN rec) as [f|o]; [done|]. simpl.
  rewrite fmap_app, IHo, IHs. by destruct o.
Qed.

Lemma main_emits_stream ave_qual process_summary (parsed args : Args)
  (pre post : list SeqRecord) (rec : SeqRecord) :
  get_args parsed = inr args →
  arg_summary parsed = None ∨ arg_summary parsed = Some EmptyString →
  status (main ave_qual process_summary parsed pre) = Finished →
  (∃ q, ave_qual (phred_quality rec) = Some q
        ∧ float_gt_int q (arg_quality parsed) = true) →
  arg_length parsed + or_zero (arg_headcrop parsed)
  + or_zero (arg_tailcrop parsed) < len rec →
  (GC_filter args = false
   ∨ ∃ gc, gc_content rec = inr gc
           ∧ fle (arg_minGC parsed) gc = true
           ∧ fle gc (arg_maxGC parsed) = true) →
  rec_slice rec (arg_headcrop (normalise_tailcrop args))
                (arg_tailcrop (normalise_tailcrop args))
  ∈ stdout (main ave_qual process_summary parsed (pre ++ rec :: post)).
Proof.
  intros Hargs Hstream%uses_summary_false Hpre Hq Hlen Hgc.
  rewrite (main_on_stream _ _ _ _ pre Hargs Hstream) in Hpre.
  rewrite (main_on_stream _ _ _ _ (pre ++ rec :: post) Hargs Hstream).
  rewrite filter_stream_print in Hpre. rewrite filter_stream_print.
  apply print_loop_emits; [done|]. unfold stream_turn.
  by rewrite (proj2 (proj1 (stream_step_acceptance ave_qual parsed args rec Hargs))
                    (conj Hq (conj Hlen Hgc))).
Qed.

Lemma main_emits_summary ave_qual process_summary (parsed args : Args)
  (name : string) (pre post : list SeqRecord) (rec : SeqRecord) (q : float) :
  get_args parsed = inr args →
  arg_summary parsed = Some name → name ≠ EmptyString →
  status (main ave_qual process_summary parsed pre) = Finished →
  summary_dict (process_summary name (arg_readtype parsed)) !! rec_id rec
  = Some q →
  float_gt_int q (arg_quality parsed) = true →
  arg_length parsed < len rec →
  rec_slice rec (arg_headcrop (normalise_tailcrop args))
                (arg_tailcrop (normalise_tailcrop args))
  ∈ stdout (main ave_qual process_summary parsed (pre ++ rec :: post)).
Proof.
  intros Hargs Hname Hne Hpre Hq Hgt Hlen.
  pose proof (uses_summary_true _ _ Hname Hne) as Hsum.
  destruct (get_args_readtype _ _ Hargs) as (Er & Es & _).
  destruct (get_args_fields _ _ Hargs) as (El & Eq & _).
  destruct (normalise_tailcrop_fields args) as (El' & Eq' & _).
  rewrite (main_on_summary _ _ _ _ pre Hargs Hsum) in Hpre.
  rewrite (main_on_summary _ _ _ _ (pre ++ rec :: post) Hargs Hsum).
  unfold filter_using_summary in *. rewrite Er, Es, Hname in *. simpl in *.
  rewrite filter_with_print in Hpre. rewrite filter_with_print.
  apply print_loop_emits; [done|]. unfold summary_turn.
  rewrite (proj2 (proj1 (summary_step_acceptance _ (normalise_tailcrop args)
                           rec q Hq))); [done|].
  rewrite Eq', El', Eq, El. by split.
Qed.

(** C10. A tail crop typed as 0 is not an absent tail crop.  With 0 the
    negation of [main] is skipped and records are sliced as
    [head_crop : 0].  On both paths the run accepts the same records and
    ends the same way as with no tail crop, but prints each of them with an
    empty sequence and an empty list of scores, where the run with no tail
    crop prints the record from the head crop on: a record the run gets to
    and accepts is in the output, empty with 0 and whole from the head crop
    on without.  On the read ACGT the stream path prints an empty record
    against the whole read; on two reads found in the summary so does the
    summary path, one of them a read the stream path would reject. *)
Theorem tailcrop_zero_is_not_absent ave_qual process_summary
  (parsed args : Args) (name : string) (pre post : list SeqRecord)
  (rec : SeqRecord) (q : float) :
  get_args parsed = inr args →
  arg_tailcrop parsed = Some 0 →
  let absent := set_tailcrop parsed None in
  normalise_tailcrop args = args
  ∧ (∀ stdin,
       stdout (main ave_qual process_summary parsed stdin)
       = (λ r, emptied (rec_id r))
           <$> stdout (main ave_qual process_summary absent stdin)
       ∧ status (main ave_qual process_summary parsed stdin)
         = status (main ave_qual process_summary absent stdin))
  ∧ (∀ stdin r, r ∈ stdout (main ave_qual process_summary parsed stdin) →
       (∃ rec', rec' ∈ stdin ∧ r = rec_slice rec' (arg_headcrop parsed) (Some 0))
       ∧ rec_seq r = [] ∧ phred_quality r = [])
  ∧ (∀ stdin r, r ∈ stdout (main ave_qual process_summary absent stdin) →
       ∃ rec', rec' ∈ stdin
               ∧ r = rec_slice rec' (arg_headcrop parsed) None
               ∧ (0 ≤ or_zero (arg_headcrop parsed) →
                  rec_seq r
                  = drop (Z.to_nat (or_zero (arg_headcrop parsed))) (rec_seq rec')
                  ∧ phred_quality r
                    = drop (Z.to_nat (or_zero (arg_headcrop parsed)))
                           (phred_quality rec')))
  ∧ (arg_summary parsed = None ∨ arg_summary parsed = Some EmptyString →
     status (main ave_qual process_summary parsed pre) = Finished →
     (∃ q', ave_qual (phred_quality rec) = Some q'
            ∧ float_gt_int q' (arg_quality parsed) = true) →
     arg_length parsed + or_zero (arg_headcrop parsed) < len rec →
     (GC_filter args = false
      ∨ ∃ gc, gc_content rec = inr gc
              ∧ fle (arg_minGC parsed) gc = true
              ∧ fle gc (arg_maxGC parsed) = true) →
     emptied (rec_id rec)
       ∈ stdout (main ave_qual process_summary parsed (pre ++ rec :: post))
     ∧ rec_slice rec (arg_headcrop parsed) None
       ∈ stdout (main ave_qual process_summary absent (pre ++ rec :: post)))
  ∧ (arg_summary parsed = Some name → name ≠ EmptyString →
     status (main ave_qual process_summary parsed pre) = Finished →
     summary_dict (process_summary name (arg_readtype parsed)) !! rec_id rec
     = Some q →
     float_gt_int q (arg_quality parsed) = true →
     arg_length parsed < len rec →
     emptied (rec_id rec)
       ∈ stdout (main ave_qual process_summary parsed (pre ++ rec :: post))
     ∧ rec_slice rec (arg_headcrop parsed) None
       ∈ stdout (main ave_qual process_summary absent (pre ++ rec :: post)))
  ∧ stdout (main flat_ave_qual no_summary tail0_parsed [r3]) = [emptied "r3"]
  ∧ stdout (main flat_ave_qual no_summary default_parsed [r3]) = [r3]
  ∧ stdout (main flat_ave_qual sample_rows
                 (set_tailcrop summary_parsed (Some 0)) [r1; r7])
    = [emptied "r1"; emptied "r7"]
  ∧ stdout (main flat_ave_qual sample_rows summary_parsed [r1; r7])
    = [flat_read "r1" "GTACGTAC" 30; flat_read "r7" "GTACG" 5]
  ∧ stdout (main flat_ave_qual no_summary
                 (set_tailcrop sample_parsed (Some 0)) [r1; r7])
    = [emptied "r1"].
Proof.
  intros Hargs Ht absent.
  destruct (get_args_fields _ _ Hargs) as (El & Eq & Elo & Ehi & Eh & Et & Es & _).
  assert (Hn : normalise_tailcrop args = args).
  { unfold normalise_tailcrop, truthy. by rewrite Et, Ht. }
  pose proof (get_args_set_tailcrop _ _ None Hargs) as HargsN.
  fold absent in HargsN.
  assert (HnN : normalise_tailcrop (set_tailcrop args None) = set_tailcrop args None)
    by done.
  assert (Hsame : ∀ stdin,
    stdout (main ave_qual process_summary parsed stdin)
    = (λ r, emptied (rec_id r))
        <$> stdout (main ave_qual process_summary absent stdin)
    ∧ status (main ave_qual process_summary parsed stdin)
      = status (main ave_qual process_summary absent stdin)).
  { intros stdin. unfold main. rewrite Hargs, HargsN, Hn, HnN.
    assert (Htail : arg_tailcrop args = Some 0) by (by rewrite Et).
    change (uses_summary (set_tailcrop args None)) with (uses_summary args).
    destruct (uses_summary args).
    - unfold filter_using_summary. simpl. rewrite !filter_with_print.
      apply print_loop_map. intros rec'.
      unfold summary_turn, summary_step, summary_test. simpl.
      destruct (_ !! rec_id rec') as [q'|]; [|done].
      destruct (_ && _)%bool; [|done]. simpl.
      by rewrite Htail, rec_slice_stop_zero.
    - rewrite !filter_stream_print. apply print_loop_map. intros rec'.
      unfold stream_turn, stream_step, stream_test, minlen. simpl.
      rewrite Htail. simpl.
      destruct (if GC_filter args then _ else _) as [e|gc]; [done|].
      destruct (ave_qual _) as [q'|]; [|done].
      destruct (_ && _)%bool; [|done]. simpl.
      by rewrite rec_slice_stop_zero. }
  pose proof (tailcrop_zero_output_empty ave_qual process_summary parsed args)
    as Hzero.
  pose proof (tailcrop_zero_output_empty ave_qual process_summary absent
                (set_tailcrop args None)) as Habsent.
  split; [done|]. split; [done|]. split.
  { intros stdin. exact (proj2 (proj1 (Hzero stdin Hargs) Ht)). }
  split.
  { intros stdin. exact (proj1 (proj2 (Habsent stdin HargsN)) eq_refl). }
  split.
  { intros Hstream Hpre Hq Hlen Hgc. split.
    - rewrite <- (rec_slice_stop_zero rec (arg_headcrop parsed)).
      rewrite <- Ht, <- Eh, <- Et. rewrite <- Hn at 1 2.
      apply (main_emits_stream _ _ _ _ _ _ _ Hargs Hstream Hpre Hq); [|done].
      rewrite Ht. simpl. lia.
    - rewrite <- Eh.
      apply (main_emits_stream ave_qual process_summary absent
               (set_tailcrop args None) pre post rec HargsN); try done.
      + by rewrite <- (proj2 (Hsame pre)).
      + simpl. lia. }
  split; [|by vm_compute].
  intros Hname Hne Hpre Hq Hgt Hlen. split.
  - rewrite <- (rec_slice_stop_zero rec (arg_headcrop parsed)).
    rewrite <- Ht, <- Eh, <- Et. rewrite <- Hn at 1 2.
    by apply (main_emits_summary _ _ _ _ name _ _ _ q Hargs).
  - rewrite <- Eh.
    apply (main_emits_summary ave_qual process_summary absent
             (set_tailcrop args None) name pre post rec q HargsN); try done.
    by rewrite <- (proj2 (Hsame pre)).
Qed.

Lemma tailcrop_zero_is_not_absent_witness :
  (emptied "r7"
     ∈ stdout (main flat_ave_qual sample_rows
                    (set_tailcrop summary_parsed (Some 0)) ([r1] ++ r7 :: []))
   ∧ flat_read "r7" "GTACG" 5
     ∈ stdout (main flat_ave_qual sample_rows summary_parsed ([r1] ++ r7 :: [])))
  ∧ (emptied "r3"
       ∈ stdout (main flat_ave_qual no_summary tail0_parsed ([r1] ++ r3 :: []))
     ∧ r3 ∈ stdout (main flat_ave_qual no_summary default_parsed
                         ([r1] ++ r3 :: []))).
Proof.
  split.
  - pose proof (tailcrop_zero_is_not_absent flat_ave_qual sample_rows
                  (set_tailcrop summary_parsed (Some 0))
                  (set_tailcrop summary_parsed (Some 0))
                  "sequencing_summary.txt" [r1] [] r7 (float_of_int 12)
                  eq_refl eq_refl) as (_ & _ & _ & _ & _ & Hsum & _).
    apply Hsum; first [reflexivity | discriminate].
  - pose proof (tailcrop_zero_is_not_absent flat_ave_qual no_summary
                  tail0_parsed tail0_parsed EmptyString [r1] [] r3 f0_0
                  eq_refl eq_refl) as (_ & _ & _ & _ & Hstream & _).
    apply Hstream.
    + left. reflexivity.
    + reflexivity.
    + exists (float_of_int 30). split; reflexivity.
    + reflexivity.
    + left. reflexivity.
Defined.
